(** * The modal overlay controller of [ui/src/modal.ts]

    The module keeps one private writable store [overlayStore], exports the
    derived read-only view [store] and the two operations [hide] and
    [toggle].  The operations call back into code supplied by their callers
    (the [onHide] closures), which may itself call [hide] and [toggle], may
    throw, and may not terminate.  The development has three layers:

    - [Store]: the reactive store primitive ([writable], [derived], [get],
      [set], [subscribe]) as an executable model;
    - [Section Controller]: [hide] and [toggle] translated from the source,
      over an arbitrary behaviour [invoke] of the closures;
    - [Prog], [exec], [call]: closures written against the exported interface
      and run with a recursion budget, which ties the knot for re-entrant
      closures and yields runs that can be evaluated.

    Modelling decisions:

    - a closure is a reference ([OnHide]); what calling it does is given
      separately, as a function from the world to a run;
    - a run records a trace of events, the world it ended in, and whether it
      returned, threw, or ran out of budget;
    - the subscribers of the stores are observers: a notification is recorded
      in the trace, the subscriber does not call back into the controller and
      its failures do not reach the caller of [set] (the store isolates
      them);
    - the variables that closures close over are one number, [ambient]. *)

From Stdlib Require Import List String Arith Bool Lia.
Import ListNotations.
Open Scope string_scope.
Open Scope list_scope.

(** ** The reactive store *)

Module Store.

(** A registered subscriber callback is known by its identity. *)
Definition Subscriber := nat.

Section Cell.
Context {T : Type}.

(** Modelled from the spec: [svelte/store] is an external package and is
    not part of the sources.  A store is a current value and the ordered
    collection of its subscribers (insertion order is notification
    order). *)
Record t : Type := mk { current : T; subscribers : list Subscriber }.

(** One invocation of a subscriber callback with a value. *)
Definition Delivery : Type := (Subscriber * T)%type.

(** Modelled from the spec: [writable(v)] creates a store holding [v]
    with nobody subscribed. *)
Definition writable (v : T) : t := mk v [].

(** Modelled from the spec: [get] returns the current value without
    subscribing. *)
Definition get (s : t) : T := current s.

(** Every registered subscriber, in registration order, with the current
    value. *)
Definition fanout (s : t) : list Delivery :=
  map (fun k => (k, current s)) (subscribers s).

(** Modelled from the spec: [set(value)] replaces the current value and
    synchronously invokes every currently registered subscriber with the
    new value, in registration order. *)
Definition set (v : T) (s : t) : t * list Delivery :=
  let s' := mk v (subscribers s) in (s', fanout s').

(** Modelled from the spec: [update(fn)] is [set(fn(currentValue))]. *)
Definition update (fn : T -> T) (s : t) : t * list Delivery :=
  set (fn (current s)) s.

(** Modelled from the spec: [subscribe(callback)] registers the callback
    and immediately invokes it once with the current value. *)
Definition subscribe (k : Subscriber) (s : t) : t * list Delivery :=
  (mk (current s) (subscribers s ++ [k]), [(k, current s)]).

(** Modelled from the spec: the capability returned by [subscribe]
    deregisters the callback; using it again changes nothing. *)
Definition unsubscribe (k : Subscriber) (s : t) : t :=
  mk (current s) (filter (fun j => negb (Nat.eqb j k)) (subscribers s)).

(** A run of [set] calls, with everything they deliver. *)
Fixpoint set_all (vs : list T) (s : t) : t * list Delivery :=
  match vs with
  | [] => (s, [])
  | v :: vs' =>
      let (s1, d1) := set v s in
      let (s2, d2) := set_all vs' s1 in
      (s2, d1 ++ d2)
  end.

(** The values one subscriber received, oldest first. *)
Definition received (k : Subscriber) (ds : list Delivery) : list T :=
  map snd (filter (fun d => Nat.eqb (fst d) k) ds).

End Cell.

Arguments t : clear implicits.
Arguments Delivery : clear implicits.

(** Modelled from the spec: [derived(source, fn)] is a new store that holds
    [fn] of the source's value; it has no [set] of its own. *)
Definition derived {S T : Type} (source : t S) (fn : S -> T) : t T :=
  mk (fn (current source)) [].

(** Modelled from the spec: every time the source notifies, the derived
    store recomputes and re-notifies its own subscribers. *)
Definition recompute {S T : Type} (fn : S -> T) (source : t S) (d : t T)
  : t T * list (Delivery T) :=
  set (fn (current source)) d.

End Store.

(** ** Data model *)

(** [type OnHide = () => void].  A closure is a reference; [doNothing] is the
    one closure the module defines itself, every other one is supplied by a
    caller and known by its identity. *)
Inductive OnHide : Type :=
| doNothing
| Handler (id : nat).

(** [type ModalOverlay = { show: true; route; onHide } | { show: false }]. *)
Inductive ModalOverlay : Type :=
| Shown (route : string) (onHide : OnHide)
| Hidden.

Definition show (modal : ModalOverlay) : bool :=
  match modal with
  | Shown _ _ => true
  | Hidden => false
  end.

Definition OnHide_eq_dec (a b : OnHide) : {a = b} + {a <> b}.
Proof. decide equality. apply Nat.eq_dec. Defined.

Definition ModalOverlay_eq_dec (a b : ModalOverlay) : {a = b} + {a <> b}.
Proof. decide equality; [apply OnHide_eq_dec | apply string_dec]. Defined.

(** The state of the module and of its surroundings. *)
Record World : Type := mkWorld {
  overlayStore : Store.t ModalOverlay;   (* the private writable store *)
  store : Store.t ModalOverlay;          (* the exported derived store *)
  ambient : nat                          (* variables the closures close over *)
}.

(** The projection of the derived store: [$store => $store]. *)
Definition projection (v : ModalOverlay) : ModalOverlay := v.

(** The module's top level:
    [overlayStore = writable({ show: false })] and
    [store = derived(overlayStore, $store => $store)]. *)
Definition initial : World :=
  let source := Store.writable Hidden in
  mkWorld source (Store.derived source projection) 0.

(** What is observable while the program runs. *)
Inductive Event : Type :=
| OnHideCalled (c : OnHide)                             (* [modal.onHide()] *)
| StoreSet (v : ModalOverlay)                           (* [overlayStore.set(v)] *)
| Delivered (k : Store.Subscriber) (v : ModalOverlay).  (* a subscriber ran *)

Definition Event_eq_dec (a b : Event) : {a = b} + {a <> b}.
Proof.
  decide equality;
    try apply ModalOverlay_eq_dec; try apply OnHide_eq_dec; apply Nat.eq_dec.
Defined.

(** How a call ends. *)
Inductive Completion (A : Type) : Type :=
| Returned (a : A)     (* normal return *)
| Thrown               (* an exception escapes *)
| Diverged.            (* the recursion budget ran out *)

Arguments Returned {A} a.
Arguments Thrown {A}.
Arguments Diverged {A}.

(** A finished (or abandoned) computation: what it did, where it left the
    world, how it ended. *)
Record Run (A : Type) : Type := mkRun {
  trace : list Event;
  final : World;
  completion : Completion A
}.

Arguments mkRun {A} _ _ _.
Arguments trace {A} _.
Arguments final {A} _.
Arguments completion {A} _.

Definition M (A : Type) : Type := World -> Run A.

Definition ret {A : Type} (a : A) : M A := fun w => mkRun [] w (Returned a).

Definition throw {A : Type} : M A := fun w => mkRun [] w Thrown.

Definition diverge {A : Type} : M A := fun w => mkRun [] w Diverged.

Definition emit (e : Event) : M unit := fun w => mkRun [e] w (Returned tt).

Definition bind {A B : Type} (m : M A) (f : A -> M B) : M B :=
  fun w =>
    let r := m w in
    match completion r with
    | Returned a =>
        let r' := f a (final r) in
        mkRun (trace r ++ trace r') (final r') (completion r')
    | Thrown => mkRun (trace r) (final r) Thrown
    | Diverged => mkRun (trace r) (final r) Diverged
    end.

Notation "x <- m ;; k" := (bind m (fun x => k))
  (at level 61, m at next level, right associativity).
Notation "m ;; k" := (bind m (fun _ => k))
  (at level 61, right associativity).

(** [get(store)]: a one-shot read of the exported store. *)
Definition get_store : M ModalOverlay :=
  fun w => mkRun [] w (Returned (Store.get (store w))).

(** The overlay state as every reader of the exported store sees it. *)
Definition overlay (w : World) : ModalOverlay := Store.get (store w).

(** [overlayStore.set(v)]: the writable store takes the value and notifies;
    the derived store, which listens to it, recomputes and notifies in
    turn. *)
Definition overlayStore_set (v : ModalOverlay) : M unit :=
  fun w =>
    let (source, heard) := Store.set v (overlayStore w) in
    let (view, seen) := Store.recompute projection source (store w) in
    mkRun (StoreSet v :: map (fun d => Delivered (fst d) (snd d)) (heard ++ seen))
          (mkWorld source view (ambient w))
          (Returned tt).

(** [store.subscribe(k)], called by a consumer of the exported store. *)
Definition store_subscribe (k : Store.Subscriber) : M unit :=
  fun w =>
    let (view, seen) := Store.subscribe k (store w) in
    mkRun (map (fun d => Delivered (fst d) (snd d)) seen)
          (mkWorld (overlayStore w) view (ambient w))
          (Returned tt).

(** The capability that [store.subscribe(k)] returned, called by the
    consumer. *)
Definition store_unsubscribe (k : Store.Subscriber) : M unit :=
  fun w =>
    mkRun [] (mkWorld (overlayStore w) (Store.unsubscribe k (store w)) (ambient w))
          (Returned tt).

(** Start-up followed by the components [ks] subscribing to the exported
    store. *)
Definition mounted (ks : list Store.Subscriber) : World :=
  fold_left (fun w k => final (store_subscribe k w)) ks initial.

(** Reading and writing the variables of the surrounding components. *)
Definition get_ambient : M nat :=
  fun w => mkRun [] w (Returned (ambient w)).

Definition set_ambient (n : nat) : M unit :=
  fun w => mkRun [] (mkWorld (overlayStore w) (store w) n) (Returned tt).

(** [try { m } catch { handler }] *)
Definition catch (m handler : M unit) : M unit :=
  fun w =>
    let r := m w in
    match completion r with
    | Thrown =>
        let r' := handler (final r) in
        mkRun (trace r ++ trace r') (final r') (completion r')
    | _ => r
    end.

(** ** The controller *)

Section Controller.

(** What running the body of a caller-supplied closure does. *)
Variable invoke : nat -> M unit.

(** The body of a closure; the body of [doNothing] is empty. *)
Definition body (c : OnHide) : M unit :=
  match c with
  | doNothing => ret tt
  | Handler id => invoke id
  end.

(** The call [modal.onHide()]. *)
Definition onHide_call (c : OnHide) : M unit :=
  emit (OnHideCalled c) ;; body c.

(** [export const hide = (): void => { ... }] *)
Definition hide : M unit :=
  modal <- get_store ;;
  match modal with
  | Shown _ onHide => onHide_call onHide
  | Hidden => ret tt
  end ;;
  overlayStore_set Hidden.

(** [modal.show && modal.route === route] *)
Definition shows_route (modal : ModalOverlay) (route : string) : bool :=
  show modal &&
  match modal with
  | Shown r _ => String.eqb r route
  | Hidden => false
  end.

(** The default of the second parameter: [onHide: OnHide = doNothing]; an
    omitted argument is [None]. *)
Definition or_doNothing (onHide_arg : option OnHide) : OnHide :=
  match onHide_arg with
  | Some c => c
  | None => doNothing
  end.

(** [export const toggle = (route, onHide = doNothing): void => { ... }] *)
Definition toggle (route : string) (onHide_arg : option OnHide) : M unit :=
  let onHide := or_doNothing onHide_arg in
  modal <- get_store ;;
  if shows_route modal route
  then hide
  else overlayStore_set (Shown route onHide).

End Controller.

(** ** Closures written against the exported interface *)

(** The code of a closure: what it can do to this module is call [hide] and
    [toggle] and read or subscribe to [store]; besides, it can use the
    variables it closes over, throw, and catch. *)
Inductive Prog : Type :=
| Return
| Throw
| CallHide (rest : Prog)
| CallToggle (route : string) (onHide_arg : option OnHide) (rest : Prog)
| GetStore (rest : ModalOverlay -> Prog)
| Subscribe (k : Store.Subscriber) (rest : Prog)
| Unsubscribe (k : Store.Subscriber) (rest : Prog)
| GetAmbient (rest : nat -> Prog)
| SetAmbient (n : nat) (rest : Prog)
| TryCatch (attempt handler rest : Prog).

Section Exec.

Variable invoke : nat -> M unit.

Fixpoint exec (p : Prog) : M unit :=
  match p with
  | Return => ret tt
  | Throw => throw
  | CallHide rest => hide invoke ;; exec rest
  | CallToggle route onHide_arg rest => toggle invoke route onHide_arg ;; exec rest
  | GetStore rest => modal <- get_store ;; exec (rest modal)
  | Subscribe k rest => store_subscribe k ;; exec rest
  | Unsubscribe k rest => store_unsubscribe k ;; exec rest
  | GetAmbient rest => n <- get_ambient ;; exec (rest n)
  | SetAmbient n rest => set_ambient n ;; exec rest
  | TryCatch attempt handler rest => catch (exec attempt) (exec handler) ;; exec rest
  end.

End Exec.

(** Calling the closure [id] of the program [code], with at most [budget]
    closure calls nested in each other. *)
Fixpoint call (code : nat -> Prog) (budget : nat) (id : nat) : M unit :=
  match budget with
  | 0 => diverge
  | S n => exec (call code n) (code id)
  end.

(** ** Sequences of calls *)

Inductive Op : Type :=
| OpToggle (route : string) (onHide_arg : option OnHide)
| OpHide.

Definition perform (invoke : nat -> M unit) (op : Op) : M unit :=
  match op with
  | OpToggle route onHide_arg => toggle invoke route onHide_arg
  | OpHide => hide invoke
  end.

(** Every call of a sequence with the world it started in and its run.  A
    call that throws unwinds to the event loop and the next call starts from
    the world it left. *)
Fixpoint history (invoke : nat -> M unit) (ops : list Op) (w : World)
  : list (World * Op * Run unit) :=
  match ops with
  | [] => []
  | op :: rest =>
      let r := perform invoke op w in
      (w, op, r) :: history invoke rest (final r)
  end.

Fixpoint world_after (invoke : nat -> M unit) (ops : list Op) (w : World) : World :=
  match ops with
  | [] => w
  | op :: rest => world_after invoke rest (final (perform invoke op w))
  end.

(** The state machine of the overlay. *)
Inductive edge : ModalOverlay -> Op -> ModalOverlay -> Prop :=
| edge_open route arg :
    edge Hidden (OpToggle route arg) (Shown route (or_doNothing arg))
| edge_close route c arg :
    edge (Shown route c) (OpToggle route arg) Hidden
| edge_switch r c route arg :
    r <> route ->
    edge (Shown r c) (OpToggle route arg) (Shown route (or_doNothing arg))
| edge_hide route c :
    edge (Shown route c) OpHide Hidden
| edge_hide_hidden :
    edge Hidden OpHide Hidden.

(** The exported store shows the projection of the private store. *)
Definition linked (w : World) : Prop :=
  Store.get (store w) = projection (Store.get (overlayStore w)).

(** How often a closure was called in a trace. *)
Definition calls (c : OnHide) (tr : list Event) : nat :=
  count_occ Event_eq_dec tr (OnHideCalled c).

(** What [overlayStore.set(Hidden)] leaves in a trace. *)
Definition clears (e : Event) : Prop :=
  e = StoreSet Hidden \/ exists k, e = Delivered k Hidden.

(** One run is the other with more budget: whatever completed stays as it
    is. *)
Definition settled {A : Type} (r r' : Run A) : Prop :=
  completion r <> Diverged -> r' = r.

(** [keeps P m]: started where [P] holds, [m] leaves the world where [P]
    holds, however it ends. *)
Definition keeps {A : Type} (P : World -> Prop) (m : M A) : Prop :=
  forall w, P w -> P (final (m w)).

(** Whether the state machine has an edge from [s] to [v], whatever the
    call. *)
Definition legalb (s v : ModalOverlay) : bool :=
  match s, v with
  | Shown r _, Shown r' _ => negb (String.eqb r r')
  | _, _ => true
  end.

(** Replaying the [set] events of a trace from the state [s]: the state the
    trace ends in, provided every [set] was a move along an edge. *)
Fixpoint replay (s : ModalOverlay) (tr : list Event) : option ModalOverlay :=
  match tr with
  | [] => Some s
  | StoreSet v :: rest => if legalb s v then replay v rest else None
  | _ :: rest => replay s rest
  end.

(** [tracked m]: the trace of [m] accounts for every change of the overlay,
    and every such change is a move along an edge. *)
Definition tracked {A : Type} (m : M A) : Prop :=
  forall w, replay (overlay w) (trace (m w)) = Some (overlay (final (m w))).

(** ** A sample program *)

Definition demo (id : nat) : Prog :=
  match id with
  | 0 => SetAmbient 1 Return                           (* notes that it ran *)
  | 1 => Throw                                         (* fails *)
  | 2 => CallToggle "help" (Some (Handler 0)) Return   (* opens another overlay *)
  | 3 => CallToggle "help" None Throw                  (* opens another, then fails *)
  | 4 => GetAmbient (fun n =>                          (* hides, the first time *)
           if Nat.eqb n 0 then SetAmbient 1 (CallHide Return) else Return)
  | 5 => CallHide Return                               (* hides, every time *)
  | 6 => GetStore (fun modal =>                        (* notes what it sees *)
           if show modal then SetAmbient 1 Return else SetAmbient 2 Return)
  | _ => Return
  end.

(** The world after [toggle("settings", Handler id)] at start-up. *)
Definition settings_open (id : nat) : World :=
  final (toggle (call demo 3) "settings" (Some (Handler id)) initial).

(** The same with a component (subscriber 7) watching the exported store. *)
Definition settings_watched (id : nat) : World :=
  final (toggle (call demo 3) "settings" (Some (Handler id)) (mounted [7])).

(** ** Notions for the properties of whole runs *)

(** A state whose stored closure, if any, is [doNothing]: what callers that
    never pass [onHide] produce. *)
Definition plain (s : ModalOverlay) : Prop :=
  s = Hidden \/ exists route, s = Shown route doNothing.

(** A call that passes no closure of its own. *)
Definition bare (op : Op) : Prop :=
  match op with
  | OpToggle _ arg => or_doNothing arg = doNothing
  | OpHide => True
  end.

(** Checking a trace from the state [s]: every closure called is the one
    stored at that moment. *)
Fixpoint obeys (s : ModalOverlay) (tr : list Event) : bool :=
  match tr with
  | [] => true
  | OnHideCalled c :: rest =>
      match s with
      | Shown _ stored => if OnHide_eq_dec c stored then obeys s rest else false
      | Hidden => false
      end
  | StoreSet v :: rest => obeys v rest
  | Delivered _ _ :: rest => obeys s rest
  end.

(** [obedient m]: in every run of [m], every closure called is the one
    stored at that moment. *)
Definition obedient {A : Type} (m : M A) : Prop :=
  forall w, obeys (overlay w) (trace (m w)) = true.

(** [toggle] calls, one per route and argument. *)
Definition toggles (l : list (string * option OnHide)) : list Op :=
  map (fun ra => OpToggle (fst ra) (snd ra)) l.

(** Whether each of the [toggle] calls [l], made in turn from the state [s],
    names a route other than the one shown when it is made. *)
Fixpoint switches (s : ModalOverlay) (l : list (string * option OnHide)) : bool :=
  match l with
  | [] => true
  | (route, arg) :: rest =>
      negb (shows_route s route) && switches (Shown route (or_doNothing arg)) rest
  end.

(** The state after the [toggle] calls [l], each opening its route. *)
Definition last_opened (s : ModalOverlay) (l : list (string * option OnHide))
  : ModalOverlay :=
  fold_left (fun _ ra => Shown (fst ra) (or_doNothing (snd ra))) l s.

(** Code that does not call back into the controller. *)
Inductive quiet : Prog -> Prop :=
| quiet_Return : quiet Return
| quiet_Throw : quiet Throw
| quiet_GetStore rest : (forall modal, quiet (rest modal)) -> quiet (GetStore rest)
| quiet_Subscribe k rest : quiet rest -> quiet (Subscribe k rest)
| quiet_Unsubscribe k rest : quiet rest -> quiet (Unsubscribe k rest)
| quiet_GetAmbient rest : (forall n, quiet (rest n)) -> quiet (GetAmbient rest)
| quiet_SetAmbient n rest : quiet rest -> quiet (SetAmbient n rest)
| quiet_TryCatch attempt handler rest :
    quiet attempt -> quiet handler -> quiet rest ->
    quiet (TryCatch attempt handler rest).

(** An event that is a notification of a subscriber. *)
Definition notification (e : Event) : Prop :=
  exists k v, e = Delivered k v.

(** [inert m]: [m] comes back, leaves the overlay as it is and does nothing
    but notify subscribers. *)
Definition inert {A : Type} (m : M A) : Prop :=
  forall w,
    overlay (final (m w)) = overlay w /\
    completion (m w) <> Diverged /\
    Forall notification (trace (m w)).

(** ** Facts about the store *)

Module StoreFacts.
Import Store.

Lemma received_app {T : Type} (k : Subscriber) (a b : list (Delivery T)) :
  received k (a ++ b) = received k a ++ received k b.
Proof.
  unfold received. now rewrite filter_app, map_app.
Qed.

Lemma received_fanout_absent {T : Type} (k : Subscriber) (s : t T) :
  ~ In k (subscribers s) -> received k (fanout s) = [].
Proof.
  unfold received, fanout. destruct s as [v ks]; simpl.
  induction ks as [|j ks IH]; simpl; intros Hk; [reflexivity|].
  destruct (Nat.eqb_spec j k) as [->|_]; [exfalso; apply Hk; now left|].
  apply IH. intros Hin. apply Hk. now right.
Qed.

Lemma received_fanout_last {T : Type} (k : Subscriber) (v : T) (ks : list Subscriber) :
  ~ In k ks -> received k (fanout (mk v (ks ++ [k]))) = [v].
Proof.
  unfold received, fanout; simpl.
  induction ks as [|j ks IH]; simpl; intros Hk.
  - now rewrite Nat.eqb_refl.
  - destruct (Nat.eqb_spec j k) as [->|_]; [exfalso; apply Hk; now left|].
    apply IH. intros Hin. apply Hk. now right.
Qed.

Lemma set_all_subscribers {T : Type} (vs : list T) (s : t T) :
  subscribers (fst (set_all vs s)) = subscribers s.
Proof.
  revert s. induction vs as [|v vs IH]; intros s; simpl; [reflexivity|].
  specialize (IH (mk v (subscribers s))).
  destruct (set_all vs (mk v (subscribers s))) as [s2 d2]; simpl in *.
  exact IH.
Qed.

Lemma received_set_all {T : Type} (k : Subscriber) (vs : list T) (v : T)
      (ks : list Subscriber) :
  ~ In k ks ->
  received k (snd (set_all vs (mk v (ks ++ [k])))) = vs.
Proof.
  intros Hk. revert v. induction vs as [|x vs IH]; intros v; simpl; [reflexivity|].
  specialize (IH x).
  destruct (set_all vs (mk x (ks ++ [k]))) as [s2 d2]; simpl in *.
  rewrite received_app, IH, received_fanout_last by assumption.
  reflexivity.
Qed.

(** Using the capability twice is using it once. *)
Lemma unsubscribe_twice {T : Type} (k : Subscriber) (s : t T) :
  unsubscribe k (unsubscribe k s) = unsubscribe k s.
Proof.
  unfold unsubscribe; simpl. f_equal.
  induction (subscribers s) as [|j ks IH]; simpl; [reflexivity|].
  destruct (Nat.eqb j k) eqn:E; simpl; [exact IH|]. now rewrite E, IH.
Qed.

(** After unsubscribing, a [set] does not reach the callback. *)
Lemma unsubscribe_silences {T : Type} (k : Subscriber) (s : t T) (v : T) :
  received k (snd (set v (unsubscribe k s))) = [].
Proof.
  apply received_fanout_absent. simpl.
  intros H. apply filter_In in H. destruct H as [_ H].
  now rewrite Nat.eqb_refl in H.
Qed.

End StoreFacts.

(** ** Facts about the monad and the store operations *)

Lemma run_eta {A : Type} (r : Run A) :
  mkRun (trace r) (final r) (completion r) = r.
Proof. now destruct r. Qed.

Lemma bind_diverged {A B : Type} (m : M A) (f : A -> M B) (w : World) :
  completion (m w) = Diverged ->
  bind m f w = mkRun (trace (m w)) (final (m w)) Diverged.
Proof. intros H. unfold bind. now rewrite H. Qed.

Lemma overlayStore_set_completion (v : ModalOverlay) (w : World) :
  completion (overlayStore_set v w) = Returned tt.
Proof. reflexivity. Qed.

Lemma overlayStore_set_overlay (v : ModalOverlay) (w : World) :
  overlay (final (overlayStore_set v w)) = v.
Proof. reflexivity. Qed.

Lemma overlayStore_set_source (v : ModalOverlay) (w : World) :
  Store.get (overlayStore (final (overlayStore_set v w))) = v.
Proof. reflexivity. Qed.

Lemma overlayStore_set_linked (v : ModalOverlay) (w : World) :
  linked (final (overlayStore_set v w)).
Proof. reflexivity. Qed.

Lemma overlayStore_set_trace (v : ModalOverlay) (w : World) :
  trace (overlayStore_set v w) =
  StoreSet v ::
  map (fun k => Delivered k v)
      (Store.subscribers (overlayStore w) ++ Store.subscribers (store w)).
Proof.
  unfold overlayStore_set, Store.recompute, Store.set, Store.fanout; simpl.
  f_equal. rewrite map_app, !map_map, map_app. reflexivity.
Qed.

Lemma overlayStore_set_same (w : World) :
  linked w -> final (overlayStore_set (overlay w) w) = w.
Proof.
  destruct w as [[v ks] [v' ks'] n]. unfold linked, overlay, projection; simpl.
  intros ->. reflexivity.
Qed.

Lemma overlayStore_set_no_call (v : ModalOverlay) (w : World) (c : OnHide) :
  ~ In (OnHideCalled c) (trace (overlayStore_set v w)).
Proof.
  rewrite overlayStore_set_trace. intros [H|H]; [discriminate|].
  apply in_map_iff in H. destruct H as [k [H _]]. discriminate.
Qed.

Lemma overlayStore_set_calls (v : ModalOverlay) (w : World) (c : OnHide) :
  calls c (trace (overlayStore_set v w)) = 0.
Proof.
  unfold calls. apply count_occ_not_In. apply overlayStore_set_no_call.
Qed.

Lemma overlayStore_set_clears (w : World) :
  Forall clears (trace (overlayStore_set Hidden w)).
Proof.
  rewrite overlayStore_set_trace. constructor; [now left|].
  apply Forall_forall. intros e H. apply in_map_iff in H.
  destruct H as [k [<- _]]. right. now exists k.
Qed.

Lemma calls_app (c : OnHide) (a b : list Event) :
  calls c (a ++ b) = calls c a + calls c b.
Proof. unfold calls. apply count_occ_app. Qed.

Lemma calls_cons_same (c : OnHide) (tr : list Event) :
  calls c (OnHideCalled c :: tr) = S (calls c tr).
Proof. unfold calls. now apply count_occ_cons_eq. Qed.

(** ** Facts about [hide] and [toggle] *)

(** Case analysis on how the stored closure ends. *)
Ltac closure_cases invoke c w Hc :=
  destruct (completion (body invoke c w)) as [[]| |] eqn:Hc.

(** Running [hide] on a shown overlay, given how the closure ends. *)
Ltac run_hide H Hc :=
  unfold overlay in H;
  unfold hide, bind, get_store, onHide_call, bind, emit; simpl;
  rewrite H; simpl; rewrite Hc; simpl; reflexivity.

Section ControllerFacts.

Variable invoke : nat -> M unit.

(** [hide] on a hidden overlay is just the final [set]. *)
Lemma hide_hidden (w : World) :
  overlay w = Hidden ->
  hide invoke w = overlayStore_set Hidden w.
Proof.
  unfold overlay. intros H. unfold hide, bind, get_store; simpl.
  rewrite H; simpl. reflexivity.
Qed.

(** [hide] on a shown overlay whose closure returns. *)
Lemma hide_returned (w : World) (route : string) (c : OnHide) :
  overlay w = Shown route c ->
  completion (body invoke c w) = Returned tt ->
  hide invoke w =
  mkRun (OnHideCalled c :: trace (body invoke c w)
           ++ trace (overlayStore_set Hidden (final (body invoke c w))))
        (final (overlayStore_set Hidden (final (body invoke c w))))
        (Returned tt).
Proof. intros H Hc. run_hide H Hc. Qed.

(** [hide] on a shown overlay whose closure throws. *)
Lemma hide_thrown (w : World) (route : string) (c : OnHide) :
  overlay w = Shown route c ->
  completion (body invoke c w) = Thrown ->
  hide invoke w =
  mkRun (OnHideCalled c :: trace (body invoke c w)) (final (body invoke c w)) Thrown.
Proof. intros H Hc. run_hide H Hc. Qed.

(** [hide] on a shown overlay whose closure does not come back. *)
Lemma hide_diverged (w : World) (route : string) (c : OnHide) :
  overlay w = Shown route c ->
  completion (body invoke c w) = Diverged ->
  hide invoke w =
  mkRun (OnHideCalled c :: trace (body invoke c w)) (final (body invoke c w)) Diverged.
Proof. intros H Hc. run_hide H Hc. Qed.

(** Whatever the closure does, [hide] starts by calling it. *)
Lemma hide_shown_trace (w : World) (route : string) (c : OnHide) :
  overlay w = Shown route c ->
  exists closing,
    trace (hide invoke w) = OnHideCalled c :: trace (body invoke c w) ++ closing /\
    Forall clears closing.
Proof.
  intros H. closure_cases invoke c w Hc.
  - rewrite (hide_returned w route c H Hc); simpl.
    eexists; split; [reflexivity|]. apply overlayStore_set_clears.
  - rewrite (hide_thrown w route c H Hc); simpl.
    exists []. now rewrite app_nil_r.
  - rewrite (hide_diverged w route c H Hc); simpl.
    exists []. now rewrite app_nil_r.
Qed.

(** [toggle] with the route that is shown is [hide]. *)
Lemma toggle_same_route (w : World) (route : string) (c : OnHide)
      (arg : option OnHide) :
  overlay w = Shown route c ->
  toggle invoke route arg w = hide invoke w.
Proof.
  unfold overlay. intros H. unfold toggle, bind at 1, get_store at 1.
  cbn [completion final trace]. rewrite H.
  cbn [shows_route show andb]. rewrite String.eqb_refl.
  apply run_eta.
Qed.

(** [toggle] with any other route, or on a hidden overlay, is one [set]. *)
Lemma toggle_opens (w : World) (route : string) (arg : option OnHide) :
  shows_route (overlay w) route = false ->
  toggle invoke route arg w =
  overlayStore_set (Shown route (or_doNothing arg)) w.
Proof.
  unfold overlay. intros H. unfold toggle, bind at 1, get_store at 1; simpl.
  rewrite H. reflexivity.
Qed.

End ControllerFacts.

(** A call that returns ends where the state machine says. *)
Lemma perform_edge (invoke : nat -> M unit) (op : Op) (w : World) :
  completion (perform invoke op w) = Returned tt ->
  edge (overlay w) op (overlay (final (perform invoke op w))).
Proof.
  assert (Hhide : forall route c,
             overlay w = Shown route c ->
             completion (hide invoke w) = Returned tt ->
             overlay (final (hide invoke w)) = Hidden).
  { intros route c Hw Hr.
    closure_cases invoke c w Hc.
    - now rewrite (hide_returned invoke w route c Hw Hc).
    - rewrite (hide_thrown invoke w route c Hw Hc) in Hr. discriminate.
    - rewrite (hide_diverged invoke w route c Hw Hc) in Hr. discriminate. }
  destruct op as [route arg|]; cbn [perform]; intros Hr.
  - destruct (overlay w) as [r c|] eqn:Hw.
    + destruct (string_dec r route) as [->|Hne].
      * rewrite (toggle_same_route invoke w route c arg Hw) in *.
        rewrite (Hhide route c eq_refl Hr). constructor.
      * rewrite toggle_opens.
        -- rewrite overlayStore_set_overlay. now constructor.
        -- rewrite Hw. simpl. now apply String.eqb_neq.
    + rewrite toggle_opens by now rewrite Hw.
      rewrite overlayStore_set_overlay. constructor.
  - destruct (overlay w) as [r c|] eqn:Hw.
    + rewrite (Hhide r c eq_refl Hr). constructor.
    + rewrite (hide_hidden invoke w Hw), overlayStore_set_overlay. constructor.
Qed.

(** A call that does not return was abandoned inside the stored closure,
    before it set anything itself. *)
Lemma perform_abandoned (invoke : nat -> M unit) (op : Op) (w : World) :
  completion (perform invoke op w) <> Returned tt ->
  exists route c,
    overlay w = Shown route c /\
    perform invoke op w =
    mkRun (OnHideCalled c :: trace (body invoke c w))
          (final (body invoke c w))
          (completion (body invoke c w)).
Proof.
  assert (Hhide : completion (hide invoke w) <> Returned tt ->
                  exists route c,
                    overlay w = Shown route c /\
                    hide invoke w =
                    mkRun (OnHideCalled c :: trace (body invoke c w))
                          (final (body invoke c w))
                          (completion (body invoke c w))).
  { intros Hr. destruct (overlay w) as [r c|] eqn:Hw.
    - exists r, c. split; [reflexivity|].
      closure_cases invoke c w Hc.
      + rewrite (hide_returned invoke w r c Hw Hc) in Hr. now elim Hr.
      + apply (hide_thrown invoke w r c Hw Hc).
      + apply (hide_diverged invoke w r c Hw Hc).
    - rewrite (hide_hidden invoke w Hw) in Hr. now elim Hr. }
  destruct op as [route arg|]; cbn [perform]; intros Hr; [|now apply Hhide].
  destruct (shows_route (overlay w) route) eqn:Hs.
  - destruct (overlay w) as [r c|] eqn:Hw; [|discriminate]. simpl in Hs.
    apply String.eqb_eq in Hs. subst r.
    rewrite (toggle_same_route invoke w route c arg Hw) in *.
    destruct (Hhide Hr) as (r' & c' & Heq & Hrun).
    exists r', c'. split; [exact Heq | exact Hrun].
  - rewrite (toggle_opens invoke w route arg Hs) in Hr. now elim Hr.
Qed.

(** ** Properties that every step keeps *)

Lemma keeps_ret {A : Type} (P : World -> Prop) (a : A) : keeps P (ret a).
Proof. intros w H. exact H. Qed.

Lemma keeps_throw {A : Type} (P : World -> Prop) : keeps P (@throw A).
Proof. intros w H. exact H. Qed.

Lemma keeps_diverge {A : Type} (P : World -> Prop) : keeps P (@diverge A).
Proof. intros w H. exact H. Qed.

Lemma keeps_emit (P : World -> Prop) (e : Event) : keeps P (emit e).
Proof. intros w H. exact H. Qed.

Lemma keeps_get_store (P : World -> Prop) : keeps P get_store.
Proof. intros w H. exact H. Qed.

Lemma keeps_get_ambient (P : World -> Prop) : keeps P get_ambient.
Proof. intros w H. exact H. Qed.

Lemma keeps_bind {A B : Type} (P : World -> Prop) (m : M A) (f : A -> M B) :
  keeps P m -> (forall a, keeps P (f a)) -> keeps P (bind m f).
Proof.
  intros Hm Hf w Hw. unfold bind.
  destruct (completion (m w)) as [a| |] eqn:Hc; simpl.
  - apply Hf. now apply Hm.
  - now apply Hm.
  - now apply Hm.
Qed.

Lemma keeps_catch (P : World -> Prop) (m handler : M unit) :
  keeps P m -> keeps P handler -> keeps P (catch m handler).
Proof.
  intros Hm Hh w Hw. unfold catch.
  destruct (completion (m w)) as [a| |] eqn:Hc; simpl.
  - now apply Hm.
  - apply Hh. now apply Hm.
  - now apply Hm.
Qed.

Lemma keeps_linked_set (v : ModalOverlay) : keeps linked (overlayStore_set v).
Proof. intros w _. apply overlayStore_set_linked. Qed.

Lemma keeps_linked_subscribe (k : Store.Subscriber) : keeps linked (store_subscribe k).
Proof. intros w H. exact H. Qed.

Lemma keeps_linked_unsubscribe (k : Store.Subscriber) :
  keeps linked (store_unsubscribe k).
Proof. intros w H. exact H. Qed.

Lemma keeps_linked_set_ambient (n : nat) : keeps linked (set_ambient n).
Proof. intros w H. exact H. Qed.

Section Keeps.

Variable invoke : nat -> M unit.
Hypothesis invoke_linked : forall id, keeps linked (invoke id).

Lemma keeps_linked_body (c : OnHide) : keeps linked (body invoke c).
Proof. destruct c; simpl; [apply keeps_ret | apply invoke_linked]. Qed.

Lemma keeps_linked_hide : keeps linked (hide invoke).
Proof.
  unfold hide. apply keeps_bind; [apply keeps_get_store|].
  intros modal. apply keeps_bind; [|intros _; apply keeps_linked_set].
  destruct modal as [route c|]; [|apply keeps_ret].
  unfold onHide_call. apply keeps_bind; [apply keeps_emit|].
  intros _. apply keeps_linked_body.
Qed.

Lemma keeps_linked_toggle (route : string) (arg : option OnHide) :
  keeps linked (toggle invoke route arg).
Proof.
  unfold toggle. apply keeps_bind; [apply keeps_get_store|].
  intros modal. destruct (shows_route modal route).
  - apply keeps_linked_hide.
  - apply keeps_linked_set.
Qed.

Lemma keeps_linked_exec (p : Prog) : keeps linked (exec invoke p).
Proof.
  induction p as [| |p IH|route arg p IH|f IH|k p IH|k p IH|f IH|n p IH
                  |p1 IH1 p2 IH2 p3 IH3]; simpl.
  - apply keeps_ret.
  - apply keeps_throw.
  - apply keeps_bind; [apply keeps_linked_hide | intros _; exact IH].
  - apply keeps_bind; [apply keeps_linked_toggle | intros _; exact IH].
  - apply keeps_bind; [apply keeps_get_store | intros modal; apply IH].
  - apply keeps_bind; [apply keeps_linked_subscribe | intros _; exact IH].
  - apply keeps_bind; [apply keeps_linked_unsubscribe | intros _; exact IH].
  - apply keeps_bind; [apply keeps_get_ambient | intros n; apply IH].
  - apply keeps_bind; [apply keeps_linked_set_ambient | intros _; exact IH].
  - apply keeps_bind; [now apply keeps_catch | intros _; exact IH3].
Qed.

Lemma keeps_linked_perform (op : Op) : keeps linked (perform invoke op).
Proof.
  destruct op; simpl; [apply keeps_linked_toggle | apply keeps_linked_hide].
Qed.

Lemma linked_world_after (ops : list Op) (w : World) :
  linked w -> linked (world_after invoke ops w).
Proof.
  revert w. induction ops as [|op ops IH]; intros w Hw; simpl; [exact Hw|].
  apply IH. now apply keeps_linked_perform.
Qed.

End Keeps.

Lemma keeps_linked_call (code : nat -> Prog) (budget id : nat) :
  keeps linked (call code budget id).
Proof.
  revert id. induction budget as [|n IH]; intros id; simpl.
  - apply keeps_diverge.
  - apply keeps_linked_exec. exact IH.
Qed.

(** ** More budget changes nothing that completed *)

Lemma settled_refl {A : Type} (r : Run A) : settled r r.
Proof. intros _. reflexivity. Qed.

Lemma settled_bind {A B : Type} (m m' : M A) (f f' : A -> M B) (w : World) :
  settled (m w) (m' w) ->
  (forall a v, settled (f a v) (f' a v)) ->
  settled (bind m f w) (bind m' f' w).
Proof.
  intros Hm Hf. unfold settled, bind in *.
  destruct (completion (m w)) as [a| |] eqn:Hc; simpl; intros Hd.
  - rewrite Hm by discriminate. rewrite Hc.
    now rewrite (Hf a (final (m w)) Hd).
  - rewrite Hm by discriminate. now rewrite Hc.
  - now elim Hd.
Qed.

Lemma settled_catch (m m' h h' : M unit) (w : World) :
  settled (m w) (m' w) ->
  (forall v, settled (h v) (h' v)) ->
  settled (catch m h w) (catch m' h' w).
Proof.
  intros Hm Hh. unfold settled, catch in *.
  destruct (completion (m w)) as [a| |] eqn:Hc; simpl; intros Hd.
  - rewrite Hm by discriminate. now rewrite Hc.
  - rewrite Hm by discriminate. rewrite Hc.
    now rewrite (Hh (final (m w)) Hd).
  - rewrite Hc in Hd. now elim Hd.
Qed.

Section Budget.

Variables invoke invoke' : nat -> M unit.
Hypothesis invoke_settled : forall id w, settled (invoke id w) (invoke' id w).

Lemma settled_body (c : OnHide) (w : World) :
  settled (body invoke c w) (body invoke' c w).
Proof. destruct c; simpl; [apply settled_refl | apply invoke_settled]. Qed.

Lemma settled_hide (w : World) : settled (hide invoke w) (hide invoke' w).
Proof.
  unfold hide. apply settled_bind; [apply settled_refl|].
  intros modal v. apply settled_bind; [|intros; apply settled_refl].
  destruct modal as [route c|]; [|apply settled_refl].
  unfold onHide_call. apply settled_bind; [apply settled_refl|].
  intros _ u. apply settled_body.
Qed.

Lemma settled_toggle (route : string) (arg : option OnHide) (w : World) :
  settled (toggle invoke route arg w) (toggle invoke' route arg w).
Proof.
  unfold toggle. apply settled_bind; [apply settled_refl|].
  intros modal v. destruct (shows_route modal route).
  - apply settled_hide.
  - apply settled_refl.
Qed.

Lemma settled_exec (p : Prog) (w : World) :
  settled (exec invoke p w) (exec invoke' p w).
Proof.
  revert w.
  induction p as [| |p IH|route arg p IH|f IH|k p IH|k p IH|f IH|n p IH
                  |p1 IH1 p2 IH2 p3 IH3]; intros w; simpl;
    try apply settled_refl;
    try (apply settled_bind; [|intros; apply IH]);
    try apply settled_refl.
  - apply settled_hide.
  - apply settled_toggle.
  - apply settled_bind; [|intros; apply IH3].
    apply settled_catch; [apply IH1 | apply IH2].
Qed.

End Budget.

Lemma settled_call_step (code : nat -> Prog) (budget id : nat) (w : World) :
  settled (call code budget id w) (call code (S budget) id w).
Proof.
  revert id w. induction budget as [|n IH]; intros id w.
  - intros H. now elim H.
  - change (settled (exec (call code n) (code id) w)
                    (exec (call code (S n)) (code id) w)).
    apply settled_exec. exact IH.
Qed.

(** A closure call that completed within some budget completes in the same
    way within every larger one. *)
Lemma call_budget_enough (code : nat -> Prog) (n m id : nat) (w : World) :
  n <= m -> settled (call code n id w) (call code m id w).
Proof.
  induction 1 as [|m Hle IH]; [apply settled_refl|].
  intros Hd. pose proof (IH Hd) as Hm.
  rewrite <- Hm. apply settled_call_step. now rewrite Hm.
Qed.

(** ** Every change of the overlay is a move along an edge *)

Lemma legalb_edge (s v : ModalOverlay) :
  legalb s v = true <-> exists op, edge s op v.
Proof.
  split.
  - destruct s as [r c|], v as [r' c'|]; simpl; intros H.
    + exists (OpToggle r' (Some c')).
      apply (edge_switch r c r' (Some c')).
      apply Bool.negb_true_iff in H. now apply String.eqb_neq.
    + exists OpHide. constructor.
    + exists (OpToggle r' (Some c')). apply (edge_open r' (Some c')).
    + exists OpHide. constructor.
  - intros [op H]. inversion H; subst; simpl; try reflexivity.
    apply Bool.negb_true_iff. now apply String.eqb_neq.
Qed.

Lemma replay_app (s : ModalOverlay) (a b : list Event) :
  replay s (a ++ b)
  = match replay s a with
    | Some s' => replay s' b
    | None => None
    end.
Proof.
  revert s. induction a as [|e a IH]; intros s; simpl; [reflexivity|].
  destruct e as [c|v|k v]; try apply IH.
  destruct (legalb s v); [apply IH | reflexivity].
Qed.

Lemma replay_deliveries (s : ModalOverlay) (v : ModalOverlay)
      (ks : list Store.Subscriber) :
  replay s (map (fun k => Delivered k v) ks) = Some s.
Proof. induction ks as [|k ks IH]; simpl; [reflexivity | exact IH]. Qed.

Lemma replay_set (v : ModalOverlay) (w : World) :
  legalb (overlay w) v = true ->
  replay (overlay w) (trace (overlayStore_set v w))
  = Some (overlay (final (overlayStore_set v w))).
Proof.
  intros H. rewrite overlayStore_set_trace, overlayStore_set_overlay. simpl.
  rewrite H. apply replay_deliveries.
Qed.

Lemma legalb_Hidden (s : ModalOverlay) : legalb s Hidden = true.
Proof. now destruct s. Qed.

Lemma legalb_opens (s : ModalOverlay) (route : string) (c : OnHide) :
  shows_route s route = false -> legalb s (Shown route c) = true.
Proof.
  destruct s as [r c'|]; unfold shows_route; simpl; [|reflexivity].
  intros H. now rewrite H.
Qed.

Lemma tracked_ret {A : Type} (a : A) : tracked (ret a).
Proof. intros w. reflexivity. Qed.

Lemma tracked_throw {A : Type} : tracked (@throw A).
Proof. intros w. reflexivity. Qed.

Lemma tracked_diverge {A : Type} : tracked (@diverge A).
Proof. intros w. reflexivity. Qed.

Lemma tracked_bind {A B : Type} (m : M A) (f : A -> M B) :
  tracked m -> (forall a, tracked (f a)) -> tracked (bind m f).
Proof.
  intros Hm Hf w. unfold bind.
  destruct (completion (m w)) as [a| |] eqn:Hc; simpl; try apply Hm.
  rewrite replay_app, Hm. apply Hf.
Qed.

Lemma tracked_catch (m h : M unit) :
  tracked m -> tracked h -> tracked (catch m h).
Proof.
  intros Hm Hh w. unfold catch.
  destruct (completion (m w)) as [a| |] eqn:Hc; simpl; try apply Hm.
  rewrite replay_app, Hm. apply Hh.
Qed.

Lemma tracked_set_Hidden : tracked (overlayStore_set Hidden).
Proof. intros w. apply replay_set. apply legalb_Hidden. Qed.

Section Tracked.

Variable invoke : nat -> M unit.
Hypothesis invoke_tracked : forall id, tracked (invoke id).

Lemma tracked_body (c : OnHide) : tracked (body invoke c).
Proof. destruct c; simpl; [apply tracked_ret | apply invoke_tracked]. Qed.

Lemma tracked_hide : tracked (hide invoke).
Proof.
  unfold hide. apply tracked_bind; [intros w; reflexivity|].
  intros modal. apply tracked_bind; [|intros _; apply tracked_set_Hidden].
  destruct modal as [route c|]; [|apply tracked_ret].
  unfold onHide_call. apply tracked_bind; [intros w; reflexivity|].
  intros _. apply tracked_body.
Qed.

Lemma tracked_toggle (route : string) (arg : option OnHide) :
  tracked (toggle invoke route arg).
Proof.
  intros w. destruct (shows_route (overlay w) route) eqn:Hs.
  - destruct (overlay w) as [r c|] eqn:Hw; [|discriminate].
    simpl in Hs. apply String.eqb_eq in Hs. subst r.
    rewrite (toggle_same_route invoke w route c arg Hw), <- Hw.
    apply tracked_hide.
  - rewrite (toggle_opens invoke w route arg Hs).
    apply replay_set. now apply legalb_opens.
Qed.

Lemma tracked_exec (p : Prog) : tracked (exec invoke p).
Proof.
  induction p as [| |p IH|route arg p IH|f IH|k p IH|k p IH|f IH|n p IH
                  |p1 IH1 p2 IH2 p3 IH3]; simpl.
  - apply tracked_ret.
  - apply tracked_throw.
  - apply tracked_bind; [apply tracked_hide | intros _; exact IH].
  - apply tracked_bind; [apply tracked_toggle | intros _; exact IH].
  - apply tracked_bind; [intros w; reflexivity | intros modal; apply IH].
  - apply tracked_bind; [intros w; reflexivity | intros _; exact IH].
  - apply tracked_bind; [intros w; reflexivity | intros _; exact IH].
  - apply tracked_bind; [intros w; reflexivity | intros n; apply IH].
  - apply tracked_bind; [intros w; reflexivity | intros _; exact IH].
  - apply tracked_bind; [now apply tracked_catch | intros _; exact IH3].
Qed.

Lemma tracked_perform (op : Op) : tracked (perform invoke op).
Proof. destruct op; simpl; [apply tracked_toggle | apply tracked_hide]. Qed.

End Tracked.

Lemma tracked_call (code : nat -> Prog) (budget id : nat) :
  tracked (call code budget id).
Proof.
  revert id. induction budget as [|n IH]; intros id; simpl.
  - apply tracked_diverge.
  - apply tracked_exec. exact IH.
Qed.

(** ** Properties of the store *)

(** C7. Subscribing a callback to a store, whatever the store holds and
    whoever is subscribed, invokes exactly that callback, exactly once, with
    the store's current value; of everything the callback receives from then
    on, this value comes first, before the value of any later [set]; and for a
    callback that was not registered before, what it receives is the current
    value followed by the values of the later [set] calls, in order. *)
Theorem subscribe_delivers_current_first
        {T : Type} (s : Store.t T) (k : Store.Subscriber) (vs : list T) :
  snd (Store.subscribe k s) = [(k, Store.current s)] /\
  (exists later,
      Store.received k (snd (Store.subscribe k s)
                          ++ snd (Store.set_all vs (fst (Store.subscribe k s))))
      = Store.current s :: later) /\
  (~ In k (Store.subscribers s) ->
   Store.received k (snd (Store.subscribe k s)
                       ++ snd (Store.set_all vs (fst (Store.subscribe k s))))
   = Store.current s :: vs).
Proof.
  split; [reflexivity|].
  rewrite StoreFacts.received_app. simpl.
  unfold Store.received at 1 3; simpl. rewrite Nat.eqb_refl; simpl.
  split; [eexists; reflexivity|].
  intros Hk. f_equal. now apply StoreFacts.received_set_all.
Qed.

Lemma subscribe_delivers_current_first_witness :
  ~ In 3 (Store.subscribers (Store.mk "a" [1; 2])) /\
  snd (Store.subscribe 3 (Store.mk "a" [1; 2])) = [(3, "a")] /\
  Store.received 3
    (snd (Store.subscribe 3 (Store.mk "a" [1; 2]))
       ++ snd (Store.set_all ["b"; "c"] (fst (Store.subscribe 3 (Store.mk "a" [1; 2])))))
  = ["a"; "b"; "c"].
Proof.
  assert (H : ~ In 3 (Store.subscribers (Store.mk "a" [1; 2]))).
  { simpl. intros [H|[H|H]]; [discriminate H | discriminate H | exact H]. }
  split; [exact H|].
  destruct (subscribe_delivers_current_first (Store.mk "a" [1; 2]) 3 ["b"; "c"])
    as (Hfirst & _ & Hall).
  split; [exact Hfirst | exact (Hall H)].
Defined.

Lemma linked_mounted (ks : list Store.Subscriber) : linked (mounted ks).
Proof.
  unfold mounted.
  assert (H : forall w, linked w ->
                        linked (fold_left (fun w k => final (store_subscribe k w)) ks w)).
  { induction ks as [|k ks IH]; intros w Hw; simpl; [exact Hw|].
    apply IH. exact Hw. }
  apply H. reflexivity.
Qed.

(** C6. Start the module, let any components subscribe to the exported
    store, and make any sequence of [toggle] and [hide] calls, with closures
    of any code and any budget: however the calls ended, the value of the
    exported store is the projection of the value of [overlayStore]; the
    projection is the identity, so a read of the exported store returns the
    current value of [overlayStore]. *)
Theorem exported_store_shows_overlayStore
        (ks : list Store.Subscriber) (code : nat -> Prog) (budget : nat)
        (ops : list Op) :
  Store.get (store (world_after (call code budget) ops (mounted ks)))
  = projection
      (Store.get (overlayStore (world_after (call code budget) ops (mounted ks))))
  /\ completion (get_store (world_after (call code budget) ops (mounted ks)))
     = Returned
         (Store.get (overlayStore (world_after (call code budget) ops (mounted ks)))).
Proof.
  assert (H : linked (world_after (call code budget) ops (mounted ks))).
  { apply linked_world_after; [|apply linked_mounted].
    intros id. apply keeps_linked_call. }
  split; [exact H|]. unfold get_store; simpl. now rewrite H.
Qed.

(** ** Properties of [toggle] and [hide] *)

(** C1 (amended).  While the overlay shows route [r], [toggle(r)] is
    [hide()], whatever its second argument; when the stored [onHide] returns
    normally, the call returns normally with the overlay hidden, having
    called the stored closure first and once itself, every other call of it
    being one the closure made. *)
Theorem toggle_shown_route_closes
        (invoke : nat -> M unit) (w : World) (route : string) (c : OnHide)
        (arg : option OnHide) :
  overlay w = Shown route c ->
  toggle invoke route arg w = hide invoke w /\
  (completion (body invoke c w) = Returned tt ->
   completion (toggle invoke route arg w) = Returned tt /\
   overlay (final (toggle invoke route arg w)) = Hidden /\
   trace (toggle invoke route arg w)
   = OnHideCalled c :: trace (body invoke c w)
       ++ trace (overlayStore_set Hidden (final (body invoke c w))) /\
   calls c (trace (toggle invoke route arg w))
   = S (calls c (trace (body invoke c w)))).
Proof.
  intros Hw. rewrite (toggle_same_route invoke w route c arg Hw).
  split; [reflexivity|]. intros Hc.
  rewrite (hide_returned invoke w route c Hw Hc); cbn [trace final completion].
  repeat split.
  rewrite calls_cons_same, calls_app, overlayStore_set_calls. now rewrite Nat.add_0_r.
Qed.

Lemma toggle_shown_route_closes_witness :
  overlay (settings_watched 0) = Shown "settings" (Handler 0) /\
  completion (body (call demo 3) (Handler 0) (settings_watched 0)) = Returned tt /\
  toggle (call demo 3) "settings" None (settings_watched 0)
  = hide (call demo 3) (settings_watched 0) /\
  overlay (final (toggle (call demo 3) "settings" None (settings_watched 0))) = Hidden /\
  calls (Handler 0) (trace (toggle (call demo 3) "settings" None (settings_watched 0)))
  = 1.
Proof.
  split; [reflexivity|]. split; [reflexivity|].
  destruct (toggle_shown_route_closes
              (call demo 3) (settings_watched 0) "settings" (Handler 0) None
              eq_refl) as (Hsame & Hret).
  destruct (Hret eq_refl) as (_ & Ho & _ & Hn).
  split; [exact Hsame|]. split; [exact Ho | exact Hn].
Defined.

(** C1 as stated fails twice over: with a stored closure that throws,
    [toggle(r)] on the shown route [r] does not end with the overlay hidden;
    and a closure that calls [hide()] itself the first time it runs is called
    twice during one [toggle(r)]. *)
Lemma toggle_shown_route_throwing_onHide :
  ~ (overlay (settings_open 1) = Shown "settings" (Handler 1) ->
     overlay (final (toggle (call demo 3) "settings" None (settings_open 1))) = Hidden /\
     calls (Handler 1)
           (trace (toggle (call demo 3) "settings" None (settings_open 1))) = 1)
  /\
  ~ (overlay (settings_open 4) = Shown "settings" (Handler 4) ->
     overlay (final (toggle (call demo 3) "settings" None (settings_open 4))) = Hidden /\
     calls (Handler 4)
           (trace (toggle (call demo 3) "settings" None (settings_open 4))) = 1).
Proof.
  split; intros H.
  - destruct (H eq_refl) as [Ho _]. vm_compute in Ho. discriminate Ho.
  - destruct (H eq_refl) as [_ Hn]. vm_compute in Hn. discriminate Hn.
Qed.

(** C2. While the overlay shows route [r2], [toggle(r, onHide)] with a
    different route [r] returns normally and leaves the overlay showing [r]
    with the supplied [onHide] ([doNothing] when none is supplied); it calls
    no closure at all, so the stored one is not invoked, and it is the new one
    that the next [hide] calls. *)
Theorem toggle_other_route_replaces
        (invoke : nat -> M unit) (w : World) (r2 r : string) (old : OnHide)
        (arg : option OnHide) :
  overlay w = Shown r2 old ->
  r <> r2 ->
  completion (toggle invoke r arg w) = Returned tt /\
  overlay (final (toggle invoke r arg w)) = Shown r (or_doNothing arg) /\
  Store.get (overlayStore (final (toggle invoke r arg w))) = Shown r (or_doNothing arg) /\
  (forall c, ~ In (OnHideCalled c) (trace (toggle invoke r arg w))) /\
  calls old (trace (toggle invoke r arg w)) = 0 /\
  exists rest,
    trace (hide invoke (final (toggle invoke r arg w)))
    = OnHideCalled (or_doNothing arg) :: rest.
Proof.
  intros Hw Hr.
  assert (Hs : shows_route (overlay w) r = false).
  { rewrite Hw; simpl. apply String.eqb_neq. congruence. }
  rewrite (toggle_opens invoke w r arg Hs).
  repeat split.
  - apply overlayStore_set_no_call.
  - apply overlayStore_set_calls.
  - destruct (hide_shown_trace invoke
                (final (overlayStore_set (Shown r (or_doNothing arg)) w))
                r (or_doNothing arg) eq_refl) as (closing & Ht & _).
    eexists. exact Ht.
Qed.

Lemma toggle_other_route_replaces_witness :
  overlay (settings_watched 0) = Shown "settings" (Handler 0) /\
  "help" <> "settings" /\
  overlay (final (toggle (call demo 3) "help" (Some (Handler 2)) (settings_watched 0)))
  = Shown "help" (Handler 2) /\
  calls (Handler 0)
        (trace (toggle (call demo 3) "help" (Some (Handler 2)) (settings_watched 0)))
  = 0.
Proof.
  assert (H : "help" <> "settings") by discriminate.
  split; [reflexivity|]. split; [exact H|].
  destruct (toggle_other_route_replaces
              (call demo 3) (settings_watched 0) "settings" "help" (Handler 0)
              (Some (Handler 2)) eq_refl H) as (_ & Ho & _ & _ & Hc & _).
  split; [exact Ho | exact Hc].
Defined.

(** C3 (amended).  While the overlay is shown and the stored [onHide]
    returns normally, [hide()] returns normally with the overlay hidden; it
    calls the stored closure first, in the world it was called in (the overlay
    still shown), then sets the hidden state; the closure is called once by
    [hide] itself, every other call of it being one the closure made. *)
Theorem hide_shown_calls_then_clears
        (invoke : nat -> M unit) (w : World) (route : string) (c : OnHide) :
  overlay w = Shown route c ->
  completion (body invoke c w) = Returned tt ->
  completion (hide invoke w) = Returned tt /\
  overlay (final (hide invoke w)) = Hidden /\
  trace (hide invoke w)
  = OnHideCalled c :: trace (body invoke c w)
      ++ trace (overlayStore_set Hidden (final (body invoke c w))) /\
  calls c (trace (hide invoke w)) = S (calls c (trace (body invoke c w))).
Proof.
  intros Hw Hc. rewrite (hide_returned invoke w route c Hw Hc); cbn [trace final completion].
  repeat split.
  rewrite calls_cons_same, calls_app, overlayStore_set_calls. now rewrite Nat.add_0_r.
Qed.

Lemma hide_shown_calls_then_clears_witness :
  overlay (settings_watched 0) = Shown "settings" (Handler 0) /\
  completion (body (call demo 3) (Handler 0) (settings_watched 0)) = Returned tt /\
  overlay (final (hide (call demo 3) (settings_watched 0))) = Hidden /\
  calls (Handler 0) (trace (hide (call demo 3) (settings_watched 0))) = 1.
Proof.
  split; [reflexivity|]. split; [reflexivity|].
  destruct (hide_shown_calls_then_clears
              (call demo 3) (settings_watched 0) "settings" (Handler 0)
              eq_refl eq_refl) as (_ & Ho & _ & Hn).
  split; [exact Ho | exact Hn].
Defined.

(** C3 as stated fails twice over: with a stored closure that throws,
    [hide()] does not end with the overlay hidden; and a closure that calls
    [hide()] itself the first time it runs is called twice during one
    [hide()]. *)
Lemma hide_shown_throwing_onHide :
  ~ (overlay (settings_open 1) = Shown "settings" (Handler 1) ->
     overlay (final (hide (call demo 3) (settings_open 1))) = Hidden /\
     calls (Handler 1) (trace (hide (call demo 3) (settings_open 1))) = 1)
  /\
  ~ (overlay (settings_open 4) = Shown "settings" (Handler 4) ->
     overlay (final (hide (call demo 3) (settings_open 4))) = Hidden /\
     calls (Handler 4) (trace (hide (call demo 3) (settings_open 4))) = 1).
Proof.
  split; intros H.
  - destruct (H eq_refl) as [Ho _]. vm_compute in Ho. discriminate Ho.
  - destruct (H eq_refl) as [_ Hn]. vm_compute in Hn. discriminate Hn.
Qed.

(** C5. [hide()] on a hidden overlay returns normally, calls no [onHide]
    closure and leaves the overlay hidden; when the two stores agree, as they
    do in every reachable state, the world is left exactly as it was. *)
Theorem hide_hidden_noop (invoke : nat -> M unit) (w : World) :
  overlay w = Hidden ->
  completion (hide invoke w) = Returned tt /\
  overlay (final (hide invoke w)) = Hidden /\
  (forall c, ~ In (OnHideCalled c) (trace (hide invoke w))) /\
  (linked w -> final (hide invoke w) = w).
Proof.
  intros Hw. rewrite (hide_hidden invoke w Hw). repeat split.
  - apply overlayStore_set_no_call.
  - intros Hl. rewrite <- Hw. now apply overlayStore_set_same.
Qed.

Lemma hide_hidden_noop_witness :
  overlay (mounted [7]) = Hidden /\
  completion (hide (call demo 3) (mounted [7])) = Returned tt /\
  final (hide (call demo 3) (mounted [7])) = mounted [7].
Proof.
  split; [reflexivity|].
  destruct (hide_hidden_noop (call demo 3) (mounted [7]) eq_refl)
    as (Hc & _ & _ & Hsame).
  split; [exact Hc | apply Hsame; reflexivity].
Defined.

(** C8. When the stored [onHide] returns normally, whatever it did meanwhile
    (calling [toggle], [hide], anything), [hide()] returns normally with the
    overlay hidden: it ends with its own [set] of the hidden state, made in
    the world the closure left. *)
Theorem hide_overrides_reentrant_onHide
        (invoke : nat -> M unit) (w : World) (route : string) (c : OnHide) :
  overlay w = Shown route c ->
  completion (body invoke c w) = Returned tt ->
  completion (hide invoke w) = Returned tt /\
  overlay (final (hide invoke w)) = Hidden /\
  Store.get (overlayStore (final (hide invoke w))) = Hidden /\
  final (hide invoke w) = final (overlayStore_set Hidden (final (body invoke c w))) /\
  trace (hide invoke w)
  = (OnHideCalled c :: trace (body invoke c w))
      ++ trace (overlayStore_set Hidden (final (body invoke c w))).
Proof.
  intros Hw Hc. rewrite (hide_returned invoke w route c Hw Hc); simpl.
  repeat split.
Qed.

Lemma hide_overrides_reentrant_onHide_witness :
  overlay (settings_watched 2) = Shown "settings" (Handler 2) /\
  completion (body (call demo 3) (Handler 2) (settings_watched 2)) = Returned tt /\
  overlay (final (body (call demo 3) (Handler 2) (settings_watched 2)))
  = Shown "help" (Handler 0) /\
  overlay (final (hide (call demo 3) (settings_watched 2))) = Hidden.
Proof.
  split; [reflexivity|]. split; [reflexivity|]. split; [reflexivity|].
  exact (proj1 (proj2 (hide_overrides_reentrant_onHide
                         (call demo 3) (settings_watched 2) "settings" (Handler 2)
                         eq_refl eq_refl))).
Defined.

(** C9 (amended).  When the stored [onHide] throws, [hide()] throws too and
    sets nothing: its run is the call of the closure followed by what the
    closure did, and it leaves the world as the closure left it, whatever
    the closure did to the overlay.  If the closure left the overlay as it
    found it, the overlay still shows the same route with the same closure,
    and the next [hide()] starts by calling that closure again. *)
Theorem hide_thrown_keeps_overlay
        (invoke : nat -> M unit) (w : World) (route : string) (c : OnHide) :
  overlay w = Shown route c ->
  completion (body invoke c w) = Thrown ->
  completion (hide invoke w) = Thrown /\
  final (hide invoke w) = final (body invoke c w) /\
  trace (hide invoke w) = OnHideCalled c :: trace (body invoke c w) /\
  (overlay (final (body invoke c w)) = overlay w ->
   overlay (final (hide invoke w)) = Shown route c /\
   exists rest,
     trace (hide invoke (final (hide invoke w))) = OnHideCalled c :: rest).
Proof.
  intros Hw Hc. rewrite (hide_thrown invoke w route c Hw Hc).
  cbn [trace final completion].
  split; [reflexivity|]. split; [reflexivity|]. split; [reflexivity|].
  intros Hsame.
  assert (Ho : overlay (final (body invoke c w)) = Shown route c) by congruence.
  split; [exact Ho|].
  destruct (hide_shown_trace invoke (final (body invoke c w)) route c Ho)
    as (closing & Ht & _).
  eexists. exact Ht.
Qed.

Lemma hide_thrown_keeps_overlay_witness :
  (overlay (settings_watched 1) = Shown "settings" (Handler 1) /\
   completion (body (call demo 3) (Handler 1) (settings_watched 1)) = Thrown /\
   overlay (final (body (call demo 3) (Handler 1) (settings_watched 1)))
   = overlay (settings_watched 1) /\
   completion (hide (call demo 3) (settings_watched 1)) = Thrown /\
   overlay (final (hide (call demo 3) (settings_watched 1)))
   = Shown "settings" (Handler 1))
  /\
  (overlay (settings_watched 3) = Shown "settings" (Handler 3) /\
   completion (body (call demo 3) (Handler 3) (settings_watched 3)) = Thrown /\
   completion (hide (call demo 3) (settings_watched 3)) = Thrown /\
   trace (hide (call demo 3) (settings_watched 3))
   = OnHideCalled (Handler 3)
       :: trace (body (call demo 3) (Handler 3) (settings_watched 3)) /\
   final (hide (call demo 3) (settings_watched 3))
   = final (body (call demo 3) (Handler 3) (settings_watched 3))).
Proof.
  split.
  - split; [reflexivity|]. split; [reflexivity|]. split; [reflexivity|].
    destruct (hide_thrown_keeps_overlay
                (call demo 3) (settings_watched 1) "settings" (Handler 1)
                eq_refl eq_refl) as (Hc & _ & _ & Hkeep).
    split; [exact Hc | exact (proj1 (Hkeep eq_refl))].
  - split; [reflexivity|]. split; [reflexivity|].
    destruct (hide_thrown_keeps_overlay
                (call demo 3) (settings_watched 3) "settings" (Handler 3)
                eq_refl eq_refl) as (Hc & Hf & Ht & _).
    split; [exact Hc|]. split; [exact Ht | exact Hf].
Defined.

(** C9 as stated fails: a closure that opens another overlay and then throws
    makes [hide()] throw, with the overlay showing neither the old route nor
    the old closure. *)
Lemma hide_thrown_after_toggle :
  ~ (overlay (settings_open 3) = Shown "settings" (Handler 3) ->
     completion (body (call demo 3) (Handler 3) (settings_open 3)) = Thrown ->
     overlay (final (hide (call demo 3) (settings_open 3)))
     = Shown "settings" (Handler 3)).
Proof.
  intros H. specialize (H eq_refl eq_refl).
  vm_compute in H. discriminate H.
Qed.

(** C10. While the overlay shows route [r] with the stored closure [c1],
    [toggle(r, c2)] is [hide()]: it calls [c1], and all it does itself after
    that is set the hidden state and notify the subscribers of it.  The
    argument [c2] plays no part: the call is the same for every second
    argument. *)
Theorem toggle_shown_route_drops_new_onHide
        (invoke : nat -> M unit) (w : World) (route : string) (c1 c2 : OnHide) :
  overlay w = Shown route c1 ->
  toggle invoke route (Some c2) w = hide invoke w /\
  (forall arg, toggle invoke route arg w = toggle invoke route (Some c2) w) /\
  (exists closing,
      trace (toggle invoke route (Some c2) w)
      = OnHideCalled c1 :: trace (body invoke c1 w) ++ closing /\
      Forall clears closing) /\
  (final (toggle invoke route (Some c2) w) = final (body invoke c1 w) \/
   final (toggle invoke route (Some c2) w)
   = final (overlayStore_set Hidden (final (body invoke c1 w)))).
Proof.
  intros Hw. split; [now apply (toggle_same_route invoke w route c1)|].
  split.
  { intros arg. now rewrite !(toggle_same_route invoke w route c1). }
  rewrite (toggle_same_route invoke w route c1 (Some c2) Hw).
  split; [now apply (hide_shown_trace invoke w route)|].
  closure_cases invoke c1 w Hc.
  - right. now rewrite (hide_returned invoke w route c1 Hw Hc).
  - left. now rewrite (hide_thrown invoke w route c1 Hw Hc).
  - left. now rewrite (hide_diverged invoke w route c1 Hw Hc).
Qed.

(** Counting calls: a closure other than the stored one is called during
    [toggle] on the shown route exactly as often as the stored closure calls
    it. *)
Lemma toggle_shown_route_other_calls
      (invoke : nat -> M unit) (w : World) (route : string) (c1 c2 : OnHide)
      (arg : option OnHide) :
  overlay w = Shown route c1 ->
  c2 <> c1 ->
  calls c2 (trace (toggle invoke route arg w)) = calls c2 (trace (body invoke c1 w)).
Proof.
  intros Hw Hne. rewrite (toggle_same_route invoke w route c1 arg Hw).
  destruct (hide_shown_trace invoke w route c1 Hw) as (closing & -> & Hcl).
  unfold calls at 1. rewrite count_occ_cons_neq by congruence.
  fold (calls c2 (trace (body invoke c1 w) ++ closing)).
  rewrite calls_app.
  assert (H0 : calls c2 closing = 0).
  { apply count_occ_not_In. intros Hin.
    rewrite Forall_forall in Hcl. destruct (Hcl _ Hin) as [H|[k H]]; discriminate H. }
  now rewrite H0, Nat.add_0_r.
Qed.

Lemma toggle_shown_route_drops_new_onHide_witness :
  overlay (settings_watched 0) = Shown "settings" (Handler 0) /\
  toggle (call demo 3) "settings" (Some (Handler 1)) (settings_watched 0)
  = hide (call demo 3) (settings_watched 0) /\
  trace (toggle (call demo 3) "settings" (Some (Handler 1)) (settings_watched 0))
  = [OnHideCalled (Handler 0); StoreSet Hidden; Delivered 7 Hidden].
Proof.
  split; [reflexivity|].
  split; [|reflexivity].
  exact (proj1 (toggle_shown_route_drops_new_onHide
                  (call demo 3) (settings_watched 0) "settings" (Handler 0)
                  (Handler 1) eq_refl)).
Defined.

(** C4 (amended).  Along every sequence of [toggle] and [hide] calls, with
    closures of any code, the overlay is hidden or shows one route; every call
    that returns normally takes the overlay along the edge of the state
    machine for that call; a call that does not return normally started on a
    shown overlay and performed no [set] of its own: its run is the call of
    the stored closure followed by what that closure did, it ends as the
    closure ended and leaves the world as the closure left it; and every
    [set] made on the way, by the call or by a closure re-entering the
    controller, moved the overlay along an edge. *)
Theorem calls_follow_state_machine
        (code : nat -> Prog) (budget : nat) (ops : list Op) (w : World) :
  Forall (fun step : World * Op * Run unit =>
            let '(w0, op, r) := step in
            (overlay (final r) = Hidden \/
             exists route c, overlay (final r) = Shown route c) /\
            (completion r = Returned tt ->
             edge (overlay w0) op (overlay (final r))) /\
            (completion r <> Returned tt ->
             exists route c,
               overlay w0 = Shown route c /\
               trace r = OnHideCalled c :: trace (body (call code budget) c w0) /\
               final r = final (body (call code budget) c w0) /\
               completion r = completion (body (call code budget) c w0)) /\
            replay (overlay w0) (trace r) = Some (overlay (final r)))
         (history (call code budget) ops w).
Proof.
  revert w. induction ops as [|op ops IH]; intros w; simpl; constructor.
  - split; [|split; [|split]].
    + destruct (overlay (final (perform (call code budget) op w))) as [route c|].
      * right. now exists route, c.
      * now left.
    + apply perform_edge.
    + intros Hr.
      destruct (perform_abandoned (call code budget) op w Hr)
        as (route & c & Hw & Hrun).
      exists route, c. split; [exact Hw|]. now rewrite Hrun.
    + apply tracked_perform. intros id. apply tracked_call.
  - apply IH.
Qed.

(** C4 as stated fails: after opening an overlay whose closure throws,
    [hide()] leaves the overlay shown; and with a closure that opens "help"
    before it throws, [hide()] takes the overlay from "settings" to "help".
    Neither is an edge. *)
Lemma hide_off_the_state_machine :
  ~ Forall (fun step : World * Op * Run unit =>
              let '(w0, op, r) := step in
              edge (overlay w0) op (overlay (final r)))
           (history (call demo 3)
                    [OpToggle "settings" (Some (Handler 1)); OpHide] initial)
  /\
  ~ Forall (fun step : World * Op * Run unit =>
              let '(w0, op, r) := step in
              edge (overlay w0) op (overlay (final r)))
           (history (call demo 3)
                    [OpToggle "settings" (Some (Handler 3)); OpHide] initial).
Proof.
  split; intros H; simpl in H;
    inversion H as [|x l _ Htail]; subst;
    inversion Htail as [|x l Hstep _]; subst;
    vm_compute in Hstep; inversion Hstep.
Qed.

(** ** Budget and sample runs *)

(** A call of [hide] or [toggle] that completed with closures run within
    some budget completes in the same way within every larger one. *)
Lemma hide_budget_enough (code : nat -> Prog) (n m : nat) (w : World) :
  n <= m -> settled (hide (call code n) w) (hide (call code m) w).
Proof.
  intros Hle. apply settled_hide. intros id v. now apply call_budget_enough.
Qed.

Lemma toggle_budget_enough
      (code : nat -> Prog) (n m : nat) (route : string) (arg : option OnHide)
      (w : World) :
  n <= m ->
  settled (toggle (call code n) route arg w) (toggle (call code m) route arg w).
Proof.
  intros Hle. apply settled_toggle. intros id v. now apply call_budget_enough.
Qed.

(** The throwing closure makes [hide] throw within every budget that lets it
    run at all. *)
Example hide_throwing_any_budget (budget : nat) :
  1 <= budget ->
  hide (call demo budget) (settings_open 1)
  = mkRun [OnHideCalled (Handler 1)] (settings_open 1) Thrown.
Proof.
  intros Hle.
  rewrite (hide_budget_enough demo 1 budget (settings_open 1) Hle); [reflexivity|].
  vm_compute. discriminate.
Qed.

(** The scenario of the specification: open "settings" with a closure, toggle
    "settings" again: the closure ran once and the overlay is hidden. *)
Example scenario_toggle_twice :
  history (call demo 3)
          [OpToggle "settings" (Some (Handler 0)); OpToggle "settings" None]
          (mounted [7])
  = [ (mounted [7],
       OpToggle "settings" (Some (Handler 0)),
       mkRun [StoreSet (Shown "settings" (Handler 0));
              Delivered 7 (Shown "settings" (Handler 0))]
             (settings_watched 0) (Returned tt));
      (settings_watched 0,
       OpToggle "settings" None,
       mkRun [OnHideCalled (Handler 0); StoreSet Hidden; Delivered 7 Hidden]
             (mkWorld (Store.mk Hidden []) (Store.mk Hidden [7]) 1)
             (Returned tt)) ].
Proof. reflexivity. Qed.

(** The other scenario: open "settings", then toggle "help": the overlay shows
    "help" and the first closure never ran. *)
Example scenario_switch_route :
  map (fun step : World * Op * Run unit => trace (snd step))
      (history (call demo 3)
               [OpToggle "settings" (Some (Handler 0)); OpToggle "help" None]
               initial)
  = [ [StoreSet (Shown "settings" (Handler 0))];
      [StoreSet (Shown "help" doNothing)] ].
Proof. reflexivity. Qed.

(** The closure runs before the state is cleared: reading the exported
    store, it still sees the overlay shown. *)
Example onHide_sees_shown :
  hide (call demo 3) (settings_open 6)
  = mkRun [OnHideCalled (Handler 6); StoreSet Hidden]
          (mkWorld (Store.mk Hidden []) (Store.mk Hidden []) 1)
          (Returned tt).
Proof. reflexivity. Qed.

(** A closure that remembers whether it ran and calls [hide()] the first
    time is entered twice during one [hide()]: once by that [hide()], once by
    the [hide()] it called itself. *)
Example hide_reentered_once :
  hide (call demo 3) (settings_open 4)
  = mkRun [OnHideCalled (Handler 4); OnHideCalled (Handler 4);
           StoreSet Hidden; StoreSet Hidden]
          (mkWorld (Store.mk Hidden []) (Store.mk Hidden []) 1)
          (Returned tt).
Proof. reflexivity. Qed.

(** A closure that calls [hide()] unconditionally never comes back. *)
Example hide_reentered_forever (budget : nat) :
  completion (hide (call demo budget) (settings_open 5)) = Diverged.
Proof.
  assert (H : forall n, completion (hide (call demo n) (settings_open 5)) = Diverged
                        /\ completion (call demo n 5 (settings_open 5)) = Diverged).
  { induction n as [|n [IHh IHc]].
    - split; reflexivity.
    - assert (Hc : completion (call demo (S n) 5 (settings_open 5)) = Diverged).
      { change (call demo (S n) 5 (settings_open 5))
          with (bind (hide (call demo n)) (fun _ => ret tt) (settings_open 5)).
        now rewrite (bind_diverged _ _ _ IHh). }
      split; [|exact Hc].
      now rewrite (hide_diverged (call demo (S n)) (settings_open 5)
                                 "settings" (Handler 5) eq_refl Hc). }
  apply H.
Qed.

(** ** Opening and closing *)

Lemma set_Hidden_after_set (v : ModalOverlay) (w : World) :
  linked w -> overlay w = Hidden ->
  final (overlayStore_set Hidden (final (overlayStore_set v w))) = w.
Proof.
  destruct w as [[s ks] [s' ks'] n]. unfold linked, overlay, projection; simpl.
  intros -> ->. reflexivity.
Qed.

Lemma hide_doNothing (invoke : nat -> M unit) (w : World) (route : string) :
  overlay w = Shown route doNothing ->
  hide invoke w =
  mkRun (OnHideCalled doNothing :: trace (overlayStore_set Hidden w))
        (final (overlayStore_set Hidden w))
        (Returned tt).
Proof.
  intros Hw. now rewrite (hide_returned invoke w route doNothing Hw eq_refl).
Qed.

Lemma open_then_close
      (invoke : nat -> M unit) (w : World) (route : string) (arg : option OnHide) :
  linked w ->
  overlay w = Hidden ->
  hide invoke (final (toggle invoke route None w))
  = mkRun (OnHideCalled doNothing
             :: trace (overlayStore_set Hidden
                         (final (overlayStore_set (Shown route doNothing) w))))
          w (Returned tt) /\
  toggle invoke route arg (final (toggle invoke route None w))
  = hide invoke (final (toggle invoke route None w)).
Proof.
  intros Hl Hw.
  assert (Hs : shows_route (overlay w) route = false) by now rewrite Hw.
  rewrite (toggle_opens invoke w route None Hs). cbn [or_doNothing].
  rewrite (toggle_same_route invoke _ route doNothing arg
             (overlayStore_set_overlay _ w)).
  rewrite (hide_doNothing invoke _ route (overlayStore_set_overlay _ w)).
  now rewrite (set_Hidden_after_set _ w Hl Hw).
Qed.

(** X1. Opening an overlay without a closure and closing it again, by
    [hide()] or by [toggle] with the same route and any second argument,
    returns normally and leaves the world exactly as it was. *)
Theorem open_close_restores
        (invoke : nat -> M unit) (w : World) (route : string) (arg : option OnHide) :
  linked w ->
  overlay w = Hidden ->
  final (hide invoke (final (toggle invoke route None w))) = w /\
  final (toggle invoke route arg (final (toggle invoke route None w))) = w /\
  completion (hide invoke (final (toggle invoke route None w))) = Returned tt /\
  completion (toggle invoke route arg (final (toggle invoke route None w)))
  = Returned tt.
Proof.
  intros Hl Hw.
  destruct (open_then_close invoke w route arg Hl Hw) as (Hh & Ht).
  rewrite Ht, Hh. repeat split.
Qed.

Lemma open_close_restores_witness :
  linked (mounted [7]) /\
  overlay (mounted [7]) = Hidden /\
  final (hide (call demo 3) (final (toggle (call demo 3) "settings" None (mounted [7]))))
  = mounted [7] /\
  final (toggle (call demo 3) "settings" (Some (Handler 1))
                (final (toggle (call demo 3) "settings" None (mounted [7]))))
  = mounted [7].
Proof.
  split; [reflexivity|]. split; [reflexivity|].
  destruct (open_close_restores (call demo 3) (mounted [7]) "settings"
                                (Some (Handler 1)) eq_refl eq_refl)
    as (Hh & Ht & _ & _).
  split; [exact Hh | exact Ht].
Defined.

(** X2. Toggling the same route [n] times without a closure, from a hidden
    overlay: after an even number of calls the world is exactly as it was,
    after an odd number the overlay shows the route. *)
Theorem toggle_parity
        (invoke : nat -> M unit) (w : World) (route : string) (n : nat) :
  linked w ->
  overlay w = Hidden ->
  (Nat.even n = true ->
   world_after invoke (repeat (OpToggle route None) n) w = w) /\
  (Nat.even n = false ->
   overlay (world_after invoke (repeat (OpToggle route None) n) w)
   = Shown route doNothing).
Proof.
  intros Hl Hw.
  assert (H : forall k,
             world_after invoke (repeat (OpToggle route None) (k + k)) w = w).
  { induction k as [|k IH]; [reflexivity|].
    replace (S k + S k) with (S (S (k + k))) by lia.
    cbn [repeat world_after perform].
    destruct (open_then_close invoke w route None Hl Hw) as (Hh & Ht).
    rewrite Ht, Hh. exact IH. }
  split; intros He.
  - apply Nat.even_spec in He. destruct He as [k ->].
    replace (2 * k) with (k + k) by lia. apply H.
  - assert (Ho : Nat.odd n = true) by now rewrite <- Nat.negb_even, He.
    apply Nat.odd_spec in Ho. destruct Ho as [k ->].
    replace (2 * k + 1) with (S (k + k)) by lia.
    cbn [repeat world_after perform].
    assert (Hs : shows_route (overlay w) route = false) by now rewrite Hw.
    assert (Hcomm : forall m v,
               world_after invoke (repeat (OpToggle route None) m)
                           (final (toggle invoke route None v))
               = final (toggle invoke route None
                               (world_after invoke (repeat (OpToggle route None) m) v))).
    { induction m as [|m IHm]; intros v; [reflexivity|].
      cbn [repeat world_after perform]. now rewrite IHm. }
    rewrite Hcomm, H.
    now rewrite (toggle_opens invoke w route None Hs).
Qed.

Lemma toggle_parity_witness :
  linked (mounted [7]) /\
  overlay (mounted [7]) = Hidden /\
  world_after (call demo 3) (repeat (OpToggle "settings" None) 4) (mounted [7])
  = mounted [7] /\
  overlay (world_after (call demo 3) (repeat (OpToggle "settings" None) 5) (mounted [7]))
  = Shown "settings" doNothing.
Proof.
  split; [reflexivity|]. split; [reflexivity|].
  split.
  - exact (proj1 (toggle_parity (call demo 3) (mounted [7]) "settings" 4
                                eq_refl eq_refl) eq_refl).
  - exact (proj2 (toggle_parity (call demo 3) (mounted [7]) "settings" 5
                                eq_refl eq_refl) eq_refl).
Defined.

(** X3. Once [hide()] has returned, another [hide()] changes nothing and calls
    nothing. *)
Theorem hide_twice
        (invoke : nat -> M unit) (w : World) :
  completion (hide invoke w) = Returned tt ->
  final (hide invoke (final (hide invoke w))) = final (hide invoke w) /\
  completion (hide invoke (final (hide invoke w))) = Returned tt /\
  (forall c, ~ In (OnHideCalled c) (trace (hide invoke (final (hide invoke w))))).
Proof.
  intros Hr.
  assert (H : exists v, final (hide invoke w) = final (overlayStore_set Hidden v)).
  { destruct (overlay w) as [route c|] eqn:Hw.
    - closure_cases invoke c w Hc.
      + rewrite (hide_returned invoke w route c Hw Hc). now eexists.
      + rewrite (hide_thrown invoke w route c Hw Hc) in Hr. discriminate.
      + rewrite (hide_diverged invoke w route c Hw Hc) in Hr. discriminate.
    - rewrite (hide_hidden invoke w Hw). now eexists. }
  destruct H as [v Hv]. rewrite Hv.
  rewrite (hide_hidden invoke _ (overlayStore_set_overlay Hidden v)).
  split; [|split; [reflexivity|]].
  - pose proof (overlayStore_set_same (final (overlayStore_set Hidden v))
                                      (overlayStore_set_linked Hidden v)) as Hsame.
    now rewrite overlayStore_set_overlay in Hsame.
  - intros c. apply overlayStore_set_no_call.
Qed.

Lemma hide_twice_witness :
  completion (hide (call demo 3) (settings_watched 2)) = Returned tt /\
  final (hide (call demo 3) (final (hide (call demo 3) (settings_watched 2))))
  = final (hide (call demo 3) (settings_watched 2)).
Proof.
  split; [reflexivity|].
  exact (proj1 (hide_twice (call demo 3) (settings_watched 2) eq_refl)).
Defined.

(** ** Callers that pass no closure *)

Lemma perform_bare (invoke invoke' : nat -> M unit) (op : Op) (w : World) :
  plain (overlay w) ->
  bare op ->
  perform invoke' op w = perform invoke op w /\
  completion (perform invoke op w) = Returned tt /\
  plain (overlay (final (perform invoke op w))) /\
  (forall c, In (OnHideCalled c) (trace (perform invoke op w)) -> c = doNothing).
Proof.
  assert (Hhide : forall v route,
             overlay v = Shown route doNothing ->
             hide invoke' v = hide invoke v /\
             completion (hide invoke v) = Returned tt /\
             plain (overlay (final (hide invoke v))) /\
             (forall c, In (OnHideCalled c) (trace (hide invoke v)) -> c = doNothing)).
  { intros v route Hv.
    rewrite (hide_doNothing invoke v route Hv), (hide_doNothing invoke' v route Hv).
    cbn [trace final completion]. repeat split.
    - now left.
    - intros c [Hc|Hc]; [congruence|].
      now apply overlayStore_set_no_call in Hc. }
  intros Hp Hb. destruct op as [route arg|]; cbn [perform bare] in *.
  - destruct (shows_route (overlay w) route) eqn:Hs.
    + destruct Hp as [Hw|[r Hw]]; rewrite Hw in Hs; [discriminate|].
      simpl in Hs. apply String.eqb_eq in Hs. subst r.
      rewrite (toggle_same_route invoke w route doNothing arg Hw),
              (toggle_same_route invoke' w route doNothing arg Hw).
      now apply (Hhide w route).
    + rewrite (toggle_opens invoke w route arg Hs),
              (toggle_opens invoke' w route arg Hs), Hb.
      repeat split.
      * right. now exists route.
      * intros c Hc. now apply overlayStore_set_no_call in Hc.
  - destruct Hp as [Hw|[r Hw]].
    + rewrite (hide_hidden invoke w Hw), (hide_hidden invoke' w Hw).
      repeat split.
      * now left.
      * intros c Hc. now apply overlayStore_set_no_call in Hc.
    + now apply (Hhide w r).
Qed.

(** X4. When no stored closure and no argument is a caller's closure, every
    call of a sequence returns normally and takes the overlay along its edge,
    the only closure ever called is [doNothing], and the behaviour of the
    callers' closures plays no part. *)
Theorem bare_calls_follow_state_machine
        (invoke invoke' : nat -> M unit) (ops : list Op) (w : World) :
  plain (overlay w) ->
  Forall bare ops ->
  Forall (fun step : World * Op * Run unit =>
            let '(w0, op, r) := step in
            completion r = Returned tt /\
            edge (overlay w0) op (overlay (final r)) /\
            (forall c, In (OnHideCalled c) (trace r) -> c = doNothing))
         (history invoke ops w) /\
  history invoke' ops w = history invoke ops w.
Proof.
  revert w. induction ops as [|op ops IH]; intros w Hp Hb; simpl.
  - split; [constructor | reflexivity].
  - inversion Hb as [|x l Hop Hrest]; subst.
    destruct (perform_bare invoke invoke' op w Hp Hop) as (Heq & Hc & Hp' & Hcalls).
    destruct (IH (final (perform invoke op w)) Hp' Hrest) as (Hall & Hsame).
    split.
    + constructor; [|exact Hall].
      split; [exact Hc|]. split; [now apply perform_edge | exact Hcalls].
    + now rewrite Heq, Hsame.
Qed.

Lemma bare_calls_follow_state_machine_witness :
  plain (overlay (mounted [7])) /\
  Forall bare [OpToggle "settings" None; OpToggle "help" (Some doNothing);
               OpToggle "help" None; OpHide] /\
  history (call demo 0)
          [OpToggle "settings" None; OpToggle "help" (Some doNothing);
           OpToggle "help" None; OpHide] (mounted [7])
  = history (call demo 3)
            [OpToggle "settings" None; OpToggle "help" (Some doNothing);
             OpToggle "help" None; OpHide] (mounted [7]).
Proof.
  assert (Hp : plain (overlay (mounted [7]))) by now left.
  assert (Hb : Forall bare [OpToggle "settings" None; OpToggle "help" (Some doNothing);
                            OpToggle "help" None; OpHide]).
  { repeat constructor. }
  split; [exact Hp|]. split; [exact Hb|].
  exact (proj2 (bare_calls_follow_state_machine
                  (call demo 3) (call demo 0) _ (mounted [7]) Hp Hb)).
Defined.

(** ** Only the stored closure is ever called *)

Lemma obeys_app (s s' : ModalOverlay) (a b : list Event) :
  replay s a = Some s' ->
  obeys s (a ++ b) = obeys s a && obeys s' b.
Proof.
  revert s. induction a as [|e a IH]; intros s Hr; simpl in *.
  - now injection Hr as ->.
  - destruct e as [c|v|k v].
    + destruct s as [route stored|]; [|reflexivity].
      destruct (OnHide_eq_dec c stored); [now apply IH | reflexivity].
    + destruct (legalb s v); [now apply IH | discriminate].
    + now apply IH.
Qed.

Lemma obeys_deliveries (s v : ModalOverlay) (ks : list Store.Subscriber) :
  obeys s (map (fun k => Delivered k v) ks) = true.
Proof. induction ks as [|k ks IH]; simpl; [reflexivity | exact IH]. Qed.

Lemma obeys_called (s : ModalOverlay) (tr : list Event) (c : OnHide) :
  obeys s tr = true ->
  In (OnHideCalled c) tr ->
  (exists route, s = Shown route c) \/
  (exists route, In (StoreSet (Shown route c)) tr).
Proof.
  revert s. induction tr as [|e tr IH]; intros s Ho Hin; [contradiction|].
  destruct Hin as [->|Hin]; simpl in Ho.
  - destruct s as [route stored|]; [|discriminate].
    destruct (OnHide_eq_dec c stored) as [->|]; [|discriminate].
    left. now exists route.
  - destruct e as [c'|v|k v].
    + destruct s as [route stored|]; [|discriminate].
      destruct (OnHide_eq_dec c' stored); [|discriminate].
      destruct (IH _ Ho Hin) as [H|[r H]]; [now left | right; exists r; now right].
    + destruct (IH _ Ho Hin) as [[r H]|[r H]].
      * right. exists r. left. now rewrite H.
      * right. exists r. now right.
    + destruct (IH _ Ho Hin) as [H|[r H]]; [now left | right; exists r; now right].
Qed.

Lemma obedient_bind {A B : Type} (m : M A) (f : A -> M B) :
  tracked m -> obedient m -> (forall a, obedient (f a)) -> obedient (bind m f).
Proof.
  intros Ht Hm Hf w. unfold bind.
  destruct (completion (m w)) as [a| |] eqn:Hc; simpl; try apply Hm.
  rewrite (obeys_app _ _ _ _ (Ht w)), Hm. apply Hf.
Qed.

Lemma obedient_catch (m h : M unit) :
  tracked m -> obedient m -> obedient h -> obedient (catch m h).
Proof.
  intros Ht Hm Hh w. unfold catch.
  destruct (completion (m w)) as [a| |] eqn:Hc; simpl; try apply Hm.
  rewrite (obeys_app _ _ _ _ (Ht w)), Hm. apply Hh.
Qed.

Lemma obedient_set (v : ModalOverlay) : obedient (overlayStore_set v).
Proof.
  intros w. rewrite overlayStore_set_trace. simpl. apply obeys_deliveries.
Qed.

Section Obedient.

Variable invoke : nat -> M unit.
Hypothesis invoke_tracked : forall id, tracked (invoke id).
Hypothesis invoke_obedient : forall id, obedient (invoke id).

Lemma obedient_body (c : OnHide) : obedient (body invoke c).
Proof. destruct c; simpl; [intros w; reflexivity | apply invoke_obedient]. Qed.

Lemma obedient_hide : obedient (hide invoke).
Proof.
  intros w. destruct (overlay w) as [route c|] eqn:Hw.
  - assert (Hb : obeys (Shown route c) (trace (body invoke c w)) = true).
    { rewrite <- Hw. apply obedient_body. }
    assert (Ht : replay (Shown route c) (trace (body invoke c w))
                 = Some (overlay (final (body invoke c w)))).
    { rewrite <- Hw. apply (tracked_body invoke invoke_tracked). }
    closure_cases invoke c w Hc.
    + rewrite (hide_returned invoke w route c Hw Hc). cbn [trace obeys].
      destruct (OnHide_eq_dec c c) as [_|Hne]; [|now elim Hne].
      rewrite (obeys_app _ _ _ _ Ht), Hb. apply obedient_set.
    + rewrite (hide_thrown invoke w route c Hw Hc). cbn [trace obeys].
      destruct (OnHide_eq_dec c c) as [_|Hne]; [exact Hb | now elim Hne].
    + rewrite (hide_diverged invoke w route c Hw Hc). cbn [trace obeys].
      destruct (OnHide_eq_dec c c) as [_|Hne]; [exact Hb | now elim Hne].
  - rewrite (hide_hidden invoke w Hw), <- Hw. apply obedient_set.
Qed.

Lemma obedient_toggle (route : string) (arg : option OnHide) :
  obedient (toggle invoke route arg).
Proof.
  intros w. destruct (shows_route (overlay w) route) eqn:Hs.
  - destruct (overlay w) as [r c|] eqn:Hw; [|discriminate].
    simpl in Hs. apply String.eqb_eq in Hs. subst r.
    rewrite (toggle_same_route invoke w route c arg Hw), <- Hw.
    apply obedient_hide.
  - rewrite (toggle_opens invoke w route arg Hs). apply obedient_set.
Qed.

Lemma obedient_exec (p : Prog) : obedient (exec invoke p).
Proof.
  induction p as [| |p IH|route arg p IH|f IH|k p IH|k p IH|f IH|n p IH
                  |p1 IH1 p2 IH2 p3 IH3]; simpl.
  - intros w; reflexivity.
  - intros w; reflexivity.
  - apply obedient_bind;
      [now apply tracked_hide | apply obedient_hide | intros _; exact IH].
  - apply obedient_bind;
      [now apply tracked_toggle | apply obedient_toggle | intros _; exact IH].
  - apply obedient_bind;
      [intros w; reflexivity | intros w; reflexivity | intros modal; apply IH].
  - apply obedient_bind;
      [intros w; reflexivity | intros w; reflexivity | intros _; exact IH].
  - apply obedient_bind;
      [intros w; reflexivity | intros w; reflexivity | intros _; exact IH].
  - apply obedient_bind;
      [intros w; reflexivity | intros w; reflexivity | intros n; apply IH].
  - apply obedient_bind;
      [intros w; reflexivity | intros w; reflexivity | intros _; exact IH].
  - apply obedient_bind; [| |intros _; exact IH3].
    + apply tracked_catch; now apply tracked_exec.
    + apply obedient_catch; [now apply tracked_exec | exact IH1 | exact IH2].
Qed.

Lemma obedient_perform (op : Op) : obedient (perform invoke op).
Proof. destruct op; simpl; [apply obedient_toggle | apply obedient_hide]. Qed.

End Obedient.

Lemma obedient_call (code : nat -> Prog) (budget id : nat) :
  obedient (call code budget id).
Proof.
  revert id. induction budget as [|n IH]; intros id; simpl.
  - intros w; reflexivity.
  - apply obedient_exec; [intros i; apply tracked_call | exact IH].
Qed.

(** X5. Along every sequence of calls, with closures of any code, a closure is
    called only while it is the stored one: it was stored when the call
    started, or an [overlayStore.set] made during the call stored it
    before. *)
Theorem only_stored_closure_called
        (code : nat -> Prog) (budget : nat) (ops : list Op) (w : World) :
  Forall (fun step : World * Op * Run unit =>
            let '(w0, op, r) := step in
            obeys (overlay w0) (trace r) = true /\
            forall c,
              In (OnHideCalled c) (trace r) ->
              (exists route, overlay w0 = Shown route c) \/
              (exists route, In (StoreSet (Shown route c)) (trace r)))
         (history (call code budget) ops w).
Proof.
  revert w. induction ops as [|op ops IH]; intros w; simpl; constructor.
  - assert (Ho : obeys (overlay w) (trace (perform (call code budget) op w)) = true).
    { apply obedient_perform; intros id;
        [apply tracked_call | apply obedient_call]. }
    split; [exact Ho|]. intros c. now apply obeys_called.
  - apply IH.
Qed.

(** ** Closures that leave the controller alone *)

Lemma inert_bind {A B : Type} (m : M A) (f : A -> M B) :
  inert m -> (forall a, inert (f a)) -> inert (bind m f).
Proof.
  intros Hm Hf w. destruct (Hm w) as (Ho & Hd & Hn). unfold bind.
  destruct (completion (m w)) as [a| |] eqn:Hc; simpl.
  - destruct (Hf a (final (m w))) as (Ho' & Hd' & Hn').
    split; [congruence|]. split; [exact Hd'|]. now apply Forall_app.
  - split; [exact Ho|]. split; [discriminate | exact Hn].
  - now elim Hd.
Qed.

Lemma inert_catch (m h : M unit) : inert m -> inert h -> inert (catch m h).
Proof.
  intros Hm Hh w. destruct (Hm w) as (Ho & Hd & Hn). unfold catch.
  destruct (completion (m w)) as [a| |] eqn:Hc; simpl.
  - split; [exact Ho|]. split; [now rewrite Hc | exact Hn].
  - destruct (Hh (final (m w))) as (Ho' & Hd' & Hn').
    split; [congruence|]. split; [exact Hd'|]. now apply Forall_app.
  - now elim Hd.
Qed.

Lemma inert_pure {A : Type} (m : M A) :
  (forall w, overlay (final (m w)) = overlay w) ->
  (forall w, completion (m w) <> Diverged) ->
  (forall w, trace (m w) = []) ->
  inert m.
Proof.
  intros Ho Hd Ht w. split; [apply Ho|]. split; [apply Hd|].
  rewrite Ht. constructor.
Qed.

Lemma inert_subscribe (k : Store.Subscriber) : inert (store_subscribe k).
Proof.
  intros w. split; [reflexivity|]. split; [discriminate|].
  repeat constructor. now exists k, (Store.current (store w)).
Qed.

Lemma inert_exec (invoke : nat -> M unit) (p : Prog) :
  quiet p -> inert (exec invoke p).
Proof.
  induction 1 as [| |f Hf IH|k p Hp IH|k p Hp IH|f Hf IH|n p Hp IH
                  |p1 p2 p3 H1 IH1 H2 IH2 H3 IH3]; simpl.
  - apply inert_pure; intros w; [reflexivity | discriminate | reflexivity].
  - apply inert_pure; intros w; [reflexivity | discriminate | reflexivity].
  - apply inert_bind; [|exact IH].
    apply inert_pure; intros w; [reflexivity | discriminate | reflexivity].
  - apply inert_bind; [apply inert_subscribe | intros _; exact IH].
  - apply inert_bind; [|intros _; exact IH].
    apply inert_pure; intros w; [reflexivity | discriminate | reflexivity].
  - apply inert_bind; [|exact IH].
    apply inert_pure; intros w; [reflexivity | discriminate | reflexivity].
  - apply inert_bind; [|intros _; exact IH].
    apply inert_pure; intros w; [reflexivity | discriminate | reflexivity].
  - apply inert_bind; [now apply inert_catch | intros _; exact IH3].
Qed.

Lemma calls_notifications (c : OnHide) (tr : list Event) :
  Forall notification tr -> calls c tr = 0.
Proof.
  intros H. apply count_occ_not_In. intros Hin.
  rewrite Forall_forall in H. destruct (H _ Hin) as (k & v & He). discriminate He.
Qed.

Lemma replay_notifications (s : ModalOverlay) (tr : list Event) :
  Forall notification tr -> replay s tr = Some s.
Proof.
  induction 1 as [|e tr (k & v & ->) _ IH]; simpl; [reflexivity | exact IH].
Qed.

(** X6. When the run of the stored closure, called by [hide()], contains no
    call of a closure and no [overlayStore.set] (the closure calls neither
    [toggle] nor [hide]), the closure is called exactly once during
    [hide()], and [hide()] ends as the closure ends: if the closure returns,
    [hide()] returns with the overlay hidden; if it throws, [hide()] throws
    with the overlay still showing the same route with the same closure; if
    it does not come back, neither does [hide()]. *)
Theorem hide_quiet_onHide
        (code : nat -> Prog) (budget : nat) (w : World) (route : string)
        (c : OnHide) :
  overlay w = Shown route c ->
  Forall notification (trace (body (call code budget) c w)) ->
  calls c (trace (hide (call code budget) w)) = 1 /\
  completion (hide (call code budget) w)
  = completion (body (call code budget) c w) /\
  (completion (body (call code budget) c w) = Returned tt ->
   overlay (final (hide (call code budget) w)) = Hidden) /\
  (completion (body (call code budget) c w) <> Returned tt ->
   overlay (final (hide (call code budget) w)) = Shown route c).
Proof.
  intros Hw Hn.
  pose proof (calls_notifications c _ Hn) as H0.
  assert (Ho : overlay (final (body (call code budget) c w)) = Shown route c).
  { pose proof (tracked_body (call code budget)
                             (fun id => tracked_call code budget id) c w) as Ht.
    rewrite (replay_notifications _ _ Hn) in Ht. injection Ht as Ht. congruence. }
  closure_cases (call code budget) c w Hc.
  - rewrite (hide_returned _ w route c Hw Hc). cbn [trace final completion].
    split; [now rewrite calls_cons_same, calls_app, H0, overlayStore_set_calls|].
    split; [reflexivity|]. split; [reflexivity|]. intros H. now elim H.
  - rewrite (hide_thrown _ w route c Hw Hc). cbn [trace final completion].
    split; [now rewrite calls_cons_same, H0|].
    split; [reflexivity|]. split; [discriminate | intros _; exact Ho].
  - rewrite (hide_diverged _ w route c Hw Hc). cbn [trace final completion].
    split; [now rewrite calls_cons_same, H0|].
    split; [reflexivity|]. split; [discriminate | intros _; exact Ho].
Qed.

Lemma hide_quiet_onHide_witness :
  (overlay (settings_watched 1) = Shown "settings" (Handler 1) /\
   Forall notification (trace (body (call demo 1) (Handler 1) (settings_watched 1))) /\
   calls (Handler 1) (trace (hide (call demo 1) (settings_watched 1))) = 1 /\
   overlay (final (hide (call demo 1) (settings_watched 1)))
   = Shown "settings" (Handler 1))
  /\
  (overlay (settings_watched 6) = Shown "settings" (Handler 6) /\
   Forall notification (trace (body (call demo 1) (Handler 6) (settings_watched 6))) /\
   calls (Handler 6) (trace (hide (call demo 1) (settings_watched 6))) = 1 /\
   overlay (final (hide (call demo 1) (settings_watched 6))) = Hidden).
Proof.
  assert (Hn1 : Forall notification
                       (trace (body (call demo 1) (Handler 1) (settings_watched 1))))
    by constructor.
  assert (Hn6 : Forall notification
                       (trace (body (call demo 1) (Handler 6) (settings_watched 6))))
    by constructor.
  split.
  - split; [reflexivity|]. split; [exact Hn1|].
    destruct (hide_quiet_onHide demo 1 (settings_watched 1) "settings" (Handler 1)
                                eq_refl Hn1) as (Hcalls & _ & _ & Hkeep).
    split; [exact Hcalls | apply Hkeep; discriminate].
  - split; [reflexivity|]. split; [exact Hn6|].
    destruct (hide_quiet_onHide demo 1 (settings_watched 6) "settings" (Handler 6)
                                eq_refl Hn6) as (Hcalls & _ & Hret & _).
    split; [exact Hcalls | apply Hret; reflexivity].
Defined.

(** ** Closures that call straight back *)

(** X7. When the code of the stored closure starts by calling [hide()], or
    [toggle] with the route that is shown, [hide()] never returns normally:
    each call finds the overlay as it was and calls the closure again, so
    with [budget] nested closure calls allowed the closure is entered
    [budget + 1] times, one inside the other, and no [overlayStore.set] is
    ever reached. *)
Theorem hide_reentrant_onHide_recurses
        (code : nat -> Prog) (budget id : nat) (w : World) (route : string) :
  overlay w = Shown route (Handler id) ->
  (exists rest, code id = CallHide rest) \/
  (exists arg rest, code id = CallToggle route arg rest) ->
  completion (hide (call code budget) w) <> Returned tt /\
  trace (hide (call code budget) w) = repeat (OnHideCalled (Handler id)) (S budget).
Proof.
  intros Hw Hcode.
  assert (H : completion (hide (call code budget) w) = Diverged /\
              final (hide (call code budget) w) = w /\
              trace (hide (call code budget) w)
              = repeat (OnHideCalled (Handler id)) (S budget)).
  { induction budget as [|n (IHc & IHf & IHt)].
    - rewrite (hide_diverged (call code 0) w route (Handler id) Hw eq_refl).
      cbn [trace final completion body call diverge]. repeat split.
    - assert (Hb : body (call code (S n)) (Handler id) w
                   = mkRun (trace (hide (call code n) w)) w Diverged).
      { cbn [body call].
        destruct Hcode as [[rest ->]|(arg & rest & ->)]; cbn [exec].
        - rewrite (bind_diverged _ _ _ IHc). now rewrite IHf.
        - unfold bind. rewrite (toggle_same_route (call code n) w route _ arg Hw).
          now rewrite IHc, IHf. }
      assert (Hc : completion (body (call code (S n)) (Handler id) w) = Diverged)
        by now rewrite Hb.
      rewrite (hide_diverged (call code (S n)) w route (Handler id) Hw Hc), Hb.
      cbn [trace final completion]. repeat split.
      now rewrite IHt. }
  destruct H as (Hc & _ & Ht). split; [|exact Ht].
  rewrite Hc. discriminate.
Qed.

Lemma hide_reentrant_onHide_recurses_witness :
  overlay (settings_watched 5) = Shown "settings" (Handler 5) /\
  completion (hide (call demo 9) (settings_watched 5)) <> Returned tt /\
  trace (hide (call demo 9) (settings_watched 5))
  = repeat (OnHideCalled (Handler 5)) 10.
Proof.
  split; [reflexivity|].
  exact (hide_reentrant_onHide_recurses demo 9 5 (settings_watched 5) "settings"
           eq_refl (or_introl (ex_intro _ Return eq_refl))).
Defined.

(** ** Overlays that are replaced *)

(** X8. A run of [toggle] calls, each naming another route than the one shown,
    calls no closure at all: every call returns normally, and the overlay ends
    showing the last route with the last argument; the closures of all the
    overlays replaced on the way are dropped uncalled. *)
Theorem switching_calls_no_closure
        (invoke : nat -> M unit) (l : list (string * option OnHide)) (w : World) :
  switches (overlay w) l = true ->
  Forall (fun step : World * Op * Run unit =>
            completion (snd step) = Returned tt /\
            forall c, ~ In (OnHideCalled c) (trace (snd step)))
         (history invoke (toggles l) w) /\
  overlay (world_after invoke (toggles l) w) = last_opened (overlay w) l.
Proof.
  revert w. induction l as [|[route arg] l IH]; intros w Hs.
  - split; [constructor | reflexivity].
  - cbn [toggles map history world_after perform fst snd].
    change (map (fun ra => OpToggle (fst ra) (snd ra)) l) with (toggles l).
    change (last_opened (overlay w) ((route, arg) :: l))
      with (last_opened (Shown route (or_doNothing arg)) l).
    simpl in Hs. apply andb_prop in Hs. destruct Hs as [Hr Hrest].
    apply Bool.negb_true_iff in Hr.
    rewrite (toggle_opens invoke w route arg Hr).
    specialize (IH (final (overlayStore_set (Shown route (or_doNothing arg)) w))).
    rewrite overlayStore_set_overlay in IH.
    destruct (IH Hrest) as (Hall & Hlast).
    split; [|exact Hlast].
    constructor; [|exact Hall].
    split; [reflexivity|]. intros c. apply overlayStore_set_no_call.
Qed.

Lemma switching_calls_no_closure_witness :
  switches (overlay (settings_watched 1))
           [("help", Some (Handler 5)); ("about", Some (Handler 3)); ("help", None)]
  = true /\
  overlay (world_after (call demo 3)
                       (toggles [("help", Some (Handler 5));
                                 ("about", Some (Handler 3)); ("help", None)])
                       (settings_watched 1))
  = Shown "help" doNothing.
Proof.
  split; [reflexivity|].
  exact (proj2 (switching_calls_no_closure
                  (call demo 3)
                  [("help", Some (Handler 5)); ("about", Some (Handler 3)); ("help", None)]
                  (settings_watched 1) eq_refl)).
Defined.

(** X9. When the stored closure opens an overlay on another route and then
    leaves the controller alone, [hide()] calls no closure but the stored
    one: if the closure returns, [hide()] hides the overlay it has just
    opened, whose closure is dropped uncalled; if it throws, that overlay
    stays shown. *)
Theorem hide_after_onHide_opens
        (code : nat -> Prog) (n id : nat) (w : World) (route other : string)
        (arg : option OnHide) (rest : Prog) :
  overlay w = Shown route (Handler id) ->
  other <> route ->
  code id = CallToggle other arg rest ->
  quiet rest ->
  In (StoreSet (Shown other (or_doNothing arg))) (trace (hide (call code (S n)) w)) /\
  (forall c, In (OnHideCalled c) (trace (hide (call code (S n)) w)) -> c = Handler id) /\
  ((completion (hide (call code (S n)) w) = Returned tt /\
    overlay (final (hide (call code (S n)) w)) = Hidden) \/
   (completion (hide (call code (S n)) w) = Thrown /\
    overlay (final (hide (call code (S n)) w)) = Shown other (or_doNothing arg))).
Proof.
  intros Hw Hne Hcode Hq.
  assert (Hs : shows_route (overlay w) other = false).
  { rewrite Hw. simpl. apply String.eqb_neq. congruence. }
  set (w1 := final (overlayStore_set (Shown other (or_doNothing arg)) w)).
  destruct (inert_exec (call code n) rest Hq w1) as (Ho & Hd & Hn).
  assert (Hb : body (call code (S n)) (Handler id) w
               = mkRun (trace (overlayStore_set (Shown other (or_doNothing arg)) w)
                          ++ trace (exec (call code n) rest w1))
                       (final (exec (call code n) rest w1))
                       (completion (exec (call code n) rest w1))).
  { cbn [body call]. rewrite Hcode. cbn [exec]. unfold bind at 1.
    now rewrite (toggle_opens (call code n) w other arg Hs). }
  assert (Hset : In (StoreSet (Shown other (or_doNothing arg)))
                    (trace (body (call code (S n)) (Handler id) w))).
  { rewrite Hb. cbn [trace]. apply in_or_app. left.
    rewrite overlayStore_set_trace. now left. }
  assert (Hquiet : forall c, ~ In (OnHideCalled c)
                               (trace (body (call code (S n)) (Handler id) w))).
  { intros c. rewrite Hb. cbn [trace]. intros Hin.
    apply in_app_or in Hin. destruct Hin as [Hin|Hin].
    - now apply overlayStore_set_no_call in Hin.
    - rewrite Forall_forall in Hn. destruct (Hn _ Hin) as (k & v & He).
      discriminate He. }
  assert (Hov : overlay (final (body (call code (S n)) (Handler id) w))
                = Shown other (or_doNothing arg)).
  { rewrite Hb. cbn [final]. now rewrite Ho. }
  closure_cases (call code (S n)) (Handler id) w Hc.
  - rewrite (hide_returned _ w route (Handler id) Hw Hc). cbn [trace final completion].
    split; [right; apply in_or_app; now left|].
    split; [|left; split; reflexivity].
    intros c [Hin|Hin]; [congruence|].
    apply in_app_or in Hin. destruct Hin as [Hin|Hin].
    + now apply Hquiet in Hin.
    + now apply overlayStore_set_no_call in Hin.
  - rewrite (hide_thrown _ w route (Handler id) Hw Hc). cbn [trace final completion].
    split; [now right|].
    split; [|right; split; [reflexivity | exact Hov]].
    intros c [Hin|Hin]; [congruence | now apply Hquiet in Hin].
  - rewrite Hb in Hc. cbn [completion] in Hc. now elim Hd.
Qed.

Lemma hide_after_onHide_opens_witness :
  overlay (settings_watched 2) = Shown "settings" (Handler 2) /\
  "help" <> "settings" /\
  demo 2 = CallToggle "help" (Some (Handler 0)) Return /\
  quiet Return /\
  In (StoreSet (Shown "help" (Handler 0)))
     (trace (hide (call demo 1) (settings_watched 2))) /\
  calls (Handler 0) (trace (hide (call demo 1) (settings_watched 2))) = 0.
Proof.
  assert (Hne : "help" <> "settings") by discriminate.
  split; [reflexivity|]. split; [exact Hne|]. split; [reflexivity|].
  split; [constructor|].
  destruct (hide_after_onHide_opens demo 0 2 (settings_watched 2) "settings" "help"
              (Some (Handler 0)) Return eq_refl Hne eq_refl quiet_Return)
    as (Hset & Honly & _).
  split; [exact Hset|].
  apply count_occ_not_In. intros Hin. specialize (Honly _ Hin). discriminate Honly.
Defined.
